(** * open_read: the dictionary lookup chain and the PDF text-layer edit store

    A shallow embedding of two components of the reader:

    - [DictionaryBubble] (the lookup resolver): [fetchOnlineDefinition] and
      the [fetchDefinition] effect, with the local (Tauri) source, the remote
      (HTTP) source, the exceptions of both and the [try]/[catch] blocks
      written out;
    - [PDFViewer] (page rendering and the edit store): [loadPdf],
      [renderPage], the per-span loop with its [click] and [blur] listeners,
      and the effect's cleanup.

    and, around them, the [mouseup] handlers of the two viewers with the
    cleaning of the selected text, what the bubble renders and when it
    closes, the debounced saving of the scroll position, the dark-mode patch
    of [drawImage], and [handleOpenFile], [handleDeepDive] and the selection
    state of [App].

    JavaScript strings are modelled as [string]: a sequence of code units in
    U+0000..U+00FF.  On that range [trim], the regular expression [\s], the
    punctuation class and [toLowerCase] are given exactly; code units above
    U+00FF are outside the model. *)

From Stdlib Require Import Ascii String NArith Lia.
From Stdlib Require Import Decimal DecimalString DecimalN DecimalPos.
From stdpp Require Import base option list gmap strings.


(** ** JavaScript string primitives *)

Module JsString.

Definition code (c : ascii) : N := N_of_ascii c.

(** [WhiteSpace] and [LineTerminator] of ECMAScript below U+0100: TAB, LF,
    VT, FF, CR, SP and NBSP.  Both [String.prototype.trim] and the regular
    expression class [\s] use this set. *)
Definition is_js_space (c : ascii) : bool :=
  ((9 <=? code c) && (code c <=? 13) || (code c =? 32) || (code c =? 160))%N.

Definition is_empty (s : string) : bool :=
  match s with EmptyString => true | String _ _ => false end.

Fixpoint trimStart (s : string) : string :=
  match s with
  | EmptyString => EmptyString
  | String c s' => if is_js_space c then trimStart s' else s
  end.

Fixpoint trimEnd (s : string) : string :=
  match s with
  | EmptyString => EmptyString
  | String c s' =>
      let r := trimEnd s' in
      if is_js_space c && is_empty r then EmptyString else String c r
  end.

(** [s.trim()] *)
Definition trim (s : string) : string := trimEnd (trimStart s).

(** The character class of [fetchOnlineDefinition]: full stop, comma,
    exclamation mark, question mark, semicolon, colon, both parentheses
    and the double quote. *)
Definition is_punct (c : ascii) : bool :=
  existsb (N.eqb (code c)) [46; 44; 33; 63; 59; 58; 40; 41; 34]%N.

(** [s.replace(punct, '')] with the global flag: every match is removed. *)
Fixpoint strip_punct (s : string) : string :=
  match s with
  | EmptyString => EmptyString
  | String c s' =>
      if is_punct c then strip_punct s' else String c (strip_punct s')
  end.

(** Lower-case mapping of one code unit below U+0100: A-Z, and the Latin-1
    capitals U+00C0..U+00DE except the multiplication sign U+00D7. *)
Definition lower_code (c : ascii) : ascii :=
  let n := code c in
  if ((65 <=? n) && (n <=? 90)
      || (192 <=? n) && (n <=? 222) && negb (n =? 215))%N
  then ascii_of_N (n + 32) else c.

(** [s.toLowerCase()], on code units below U+0100, where it maps one code
    unit to one code unit.  (Above that range it need not: U+0130 becomes
    two code units.) *)
Fixpoint toLowerCase (s : string) : string :=
  match s with
  | EmptyString => EmptyString
  | String c s' => String (lower_code c) (toLowerCase s')
  end.

(** [s.split(/\s+/)]: the pieces between maximal runs of white space.  A
    run at the start or at the end of [s] leaves an empty piece there, and
    the empty string splits into one empty piece.  [in_sep] tells that the
    previous code unit belonged to a separator. *)
Fixpoint split_ws_from (in_sep : bool) (s : string) : list string :=
  match s with
  | EmptyString => [EmptyString]
  | String c s' =>
      if is_js_space c then
        if in_sep then split_ws_from true s'
        else EmptyString :: split_ws_from true s'
      else
        match split_ws_from false s' with
        | piece :: rest => String c piece :: rest
        | [] => [String c EmptyString]
        end
  end.

Definition split_ws (s : string) : list string := split_ws_from false s.

(** Number of maximal runs of non-white-space code units: the words of
    [s]. *)
Fixpoint count_words_from (in_word : bool) (s : string) : nat :=
  match s with
  | EmptyString => 0
  | String c s' =>
      if is_js_space c then count_words_from false s'
      else (if in_word then 0 else 1) + count_words_from true s'
  end.

Definition count_words (s : string) : nat := count_words_from false s.

Definition hex_digit (n : N) : ascii :=
  ascii_of_N (if (n <? 10)%N then 48 + n else 55 + n).

Definition percent (n : N) : string :=
  String "%" (String (hex_digit (n / 16)) (String (hex_digit (n mod 16)) EmptyString)).

(** Unreserved set of [encodeURIComponent]: letters, digits and
    [- _ . ! ~ * ' ( )]. *)
Definition is_unreserved (c : ascii) : bool :=
  let n := code c in
  ((65 <=? n) && (n <=? 90) || (97 <=? n) && (n <=? 122)
   || (48 <=? n) && (n <=? 57)
   || existsb (N.eqb n) [45; 95; 46; 33; 126; 42; 39; 40; 41])%N.

(** [encodeURIComponent(s)]: every other code unit is replaced by the
    escaped octets of its UTF-8 encoding (one octet below U+0080, two
    from there to U+00FF). *)
Fixpoint encodeURIComponent (s : string) : string :=
  match s with
  | EmptyString => EmptyString
  | String c s' =>
      let n := code c in
      (if is_unreserved c then String c EmptyString
       else if (n <? 128)%N then percent n
       else percent (192 + n / 64) +:+ percent (128 + n mod 64))
      +:+ encodeURIComponent s'
  end.

End JsString.

(** ** Completions: a value or a thrown exception *)

Inductive js_error : Type :=
| TypeError
| SyntaxError
| NetworkError
| PdfError
| ImportError
| CommandError.

Inductive completion (A : Type) : Type :=
| Normal (a : A)
| Throw (e : js_error).

Arguments Normal {A} a.
Arguments Throw {A} e.

(** Sequencing, with the computation first so that the type of its value
    is known when the continuation is read. *)
Class Sequence (M : Type -> Type) : Type := {
  ret : forall {A}, A -> M A;
  bind : forall {A B}, M A -> (A -> M B) -> M B
}.

Notation "'let*' x := m 'in' k" := (bind m (fun x => k))
  (at level 10, x name, m at level 100, k at level 200,
   format "'[v' 'let*'  x  :=  m  'in'  '/' k ']'").
Notation "'run' m 'in' k" := (bind m (fun _ => k))
  (at level 10, m at level 100, k at level 200,
   format "'[v' 'run'  m  'in'  '/' k ']'").

#[global] Instance completion_sequence : Sequence completion := {|
  ret := @Normal;
  bind := fun A B (c : completion A) (f : A -> completion B) =>
    match c with
    | Normal a => f a
    | Throw e => Throw e
    end
|}.

(** ** Stateful computations that may throw

    An [async] function, run to completion: it threads a state and ends
    with a completion. *)

Definition StateErr (S A : Type) : Type := S -> completion A * S.

#[global] Instance StateErr_sequence {S} : Sequence (StateErr S) := {|
  ret := fun A a st => (Normal a, st);
  bind := fun A B (m : StateErr S A) (f : A -> StateErr S B) st =>
    match m st with
    | (Normal a, st') => f a st'
    | (Throw e, st') => (Throw e, st')
    end
|}.

Definition lift {S A} (c : completion A) : StateErr S A := fun st => (c, st).

(** [try { body } catch (e) { handler }] *)
Definition try_catch {S A} (body : StateErr S A)
    (handler : js_error -> StateErr S A) : StateErr S A :=
  fun st =>
    match body st with
    | (Normal a, st') => (Normal a, st')
    | (Throw e, st') => handler e st'
    end.

Definition modify {S} (f : S -> S) : StateErr S unit :=
  fun st => (Normal tt, f st).

Definition gets {S A} (f : S -> A) : StateErr S A :=
  fun st => (Normal (f st), st).

(** ** Values produced by [response.json()] *)

Module Json.

#[local] Set Warnings "-register-all".

(** A number is kept as what the code can observe of it: whether it is
    truthy (non-zero) and the text of its conversion to a string. *)
Inductive value : Type :=
| JNull
| JBool (b : bool)
| JNum (nonzero : bool) (text : string)
| JStr (s : string)
| JArr (elems : list value)
| JObj (fields : list (string * value)).

(** Own property of a parsed object (its keys are distinct). *)
Fixpoint own_property (fields : list (string * value)) (k : string)
  : option value :=
  match fields with
  | [] => None
  | (k', v) :: rest => if String.eqb k k' then Some v else own_property rest k
  end.

(** [v.k] for a property name [k] that no built-in prototype defines (the
    resolver reads [meanings], [definitions], [definition] and
    [partOfSpeech]).  [None] is [undefined]; reading a property of [null]
    throws. *)
Definition get (v : value) (k : string) : completion (option value) :=
  match v with
  | JNull => Throw TypeError
  | JObj fields => Normal (own_property fields k)
  | _ => Normal None
  end.

(** [ToBoolean] *)
Definition truthy (v : option value) : bool :=
  match v with
  | None => false
  | Some JNull => false
  | Some (JBool b) => b
  | Some (JNum nonzero _) => nonzero
  | Some (JStr s) => negb (JsString.is_empty s)
  | Some (JArr _) => true
  | Some (JObj _) => true
  end.

(** [ToString], as a template literal applies it.  An array joins its
    elements with commas, [null] elements giving the empty string.  An
    object prints through [Object.prototype.toString] unless a key
    [toString] of its own hides that method with a value that cannot be
    called, in which case the conversion throws. *)
Fixpoint ToString (v : value) : completion string :=
  match v with
  | JNull => Normal "null"
  | JBool true => Normal "true"
  | JBool false => Normal "false"
  | JNum _ text => Normal text
  | JStr s => Normal s
  | JArr elems =>
      (fix join (l : list value) : completion string :=
         match l with
         | [] => Normal ""
         | x :: rest =>
             match match x with JNull => Normal "" | _ => ToString x end with
             | Throw e => Throw e
             | Normal sx =>
                 match rest with
                 | [] => Normal sx
                 | _ :: _ =>
                     match join rest with
                     | Throw e => Throw e
                     | Normal sr => Normal (sx +:+ "," +:+ sr)
                     end
                 end
             end
         end) elems
  | JObj fields =>
      match own_property fields "toString" with
      | Some _ => Throw TypeError
      | None => Normal "[object Object]"
      end
  end.

Definition ToString_opt (v : option value) : completion string :=
  match v with
  | None => Normal "undefined"
  | Some v => ToString v
  end.

End Json.

(** ** DictionaryBubble: the lookup resolver *)

Module Dictionary.

Import JsString.

(** What the resolver does to the outside world, in order. *)
Inductive event : Type :=
| EvInvoke (command word : string)   (* Tauri command sent to the local source *)
| EvFetch (url : string)             (* HTTP GET sent to the remote source *)
| EvWarn (message : string).         (* console.warn *)

Inductive source_tag : Type := local | online.

(** The component state ([useState]) and the trace of events. *)
Record world : Type := {
  events : list event;
  definitions : list string;
  source : option source_tag;
  loading : bool
}.

Record Response : Type := {
  ok : bool;
  json : completion Json.value      (* response.json() *)
}.

(** The dynamic import of [@tauri-apps/api/core]. *)
Inductive tauri_core : Type :=
| ImportRejects
| InvokeNotFunction
| Invoke (search_dictionary : string -> completion (option (list string))).

Record runtime : Type := {
  isTauri : bool;                         (* !!window.__TAURI__ *)
  import_core : tauri_core;
  fetch : string -> completion Response
}.

(** Computations that read and write the world and may throw. *)
Definition M : Type -> Type := StateErr world.

Definition emit (ev : event) : M unit :=
  fun w => (Normal tt,
            {| events := events w ++ [ev]; definitions := definitions w;
               source := source w; loading := loading w |}).

Definition setDefinitions (d : list string) : M unit :=
  fun w => (Normal tt,
            {| events := events w; definitions := d;
               source := source w; loading := loading w |}).

Definition setSource (s : option source_tag) : M unit :=
  fun w => (Normal tt,
            {| events := events w; definitions := definitions w;
               source := s; loading := loading w |}).

Definition setLoading (b : bool) : M unit :=
  fun w => (Normal tt,
            {| events := events w; definitions := definitions w;
               source := source w; loading := b |}).

(** [l.forEach(cb)] where [cb] pushes onto the array [defs]. *)
Fixpoint forEach {A} (l : list A)
    (cb : A -> list string -> completion (list string))
    (defs : list string) : completion (list string) :=
  match l with
  | [] => Normal defs
  | x :: rest =>
      match cb x defs with
      | Normal defs' => forEach rest cb defs'
      | Throw e => Throw e
      end
  end.

(** [meaning.partOfSpeech || 'noun'] *)
Definition partOfSpeech_or_noun (meaning : Json.value)
  : completion (option Json.value) :=
  let* pos := Json.get meaning "partOfSpeech" in
  ret (if Json.truthy pos then pos else Some (Json.JStr "noun")).

(** The innermost callback: one element of [meaning.definitions]. *)
Definition definition_cb (meaning def : Json.value) (defs : list string)
  : completion (list string) :=
  let* d := Json.get def "definition" in
  if Json.truthy d then
    let* pos := partOfSpeech_or_noun meaning in
    let* pos_text := Json.ToString_opt pos in
    let* d' := Json.get def "definition" in
    let* d_text := Json.ToString_opt d' in
    ret (defs ++ ["(" +:+ pos_text +:+ ") " +:+ d_text])
  else ret defs.

(** [meaning.definitions?.slice(0, 2).forEach(...)] *)
Definition meaning_cb (meaning : Json.value) (defs : list string)
  : completion (list string) :=
  let* ds := Json.get meaning "definitions" in
  match ds with
  | None | Some Json.JNull => ret defs
  | Some (Json.JArr l) => forEach (take 2 l) (definition_cb meaning) defs
  | Some _ => Throw TypeError
  end.

(** [entry.meanings?.forEach(...)] *)
Definition entry_cb (entry : Json.value) (defs : list string)
  : completion (list string) :=
  let* ms := Json.get entry "meanings" in
  match ms with
  | None | Some Json.JNull => ret defs
  | Some (Json.JArr l) => forEach l meaning_cb defs
  | Some _ => Throw TypeError
  end.

Definition api_url (cleanTerm : string) : string :=
  "https://api.dictionaryapi.dev/api/v2/entries/en/"
  +:+ encodeURIComponent cleanTerm.

(** [term.trim().replace(...).toLowerCase()] *)
Definition cleanTerm_of (term : string) : string :=
  toLowerCase (strip_punct (trim term)).

(** The guard of [fetchOnlineDefinition]. *)
Definition rejected (cleanTerm : string) : bool :=
  (String.length cleanTerm <? 2) || (3 <? length (split_ws cleanTerm)).

Definition fetchOnlineDefinition (rt : runtime) (term : string)
  : M (list string) :=
  try_catch
    (let cleanTerm := cleanTerm_of term in
     if rejected cleanTerm then ret []
     else
       run emit (EvFetch (api_url cleanTerm)) in
       let* response := lift (fetch rt (api_url cleanTerm)) in
       if negb (ok response) then ret []
       else
         let* data := lift (json response) in
         let* defs := lift (match data with
                            | Json.JArr entries => forEach entries entry_cb []
                            | _ => Normal []
                            end) in
         ret (take 3 defs))
    (fun _ => ret []).

(** The first [try] block of [fetchDefinition]; its value is
    [foundLocal]. *)
Definition local_stage (rt : runtime) (word : string) : M bool :=
  if isTauri rt then
    try_catch
      (match import_core rt with
       | ImportRejects => lift (Throw ImportError)
       | InvokeNotFunction => ret false
       | Invoke search_dictionary =>
           run emit (EvInvoke "search_dictionary" (trim word)) in
           let* results := lift (search_dictionary (trim word)) in
           match results with
           | Some (r :: rs) =>
               run setDefinitions (r :: rs) in
               run setSource (Some local) in
               ret true
           | _ => ret false
           end
       end)
      (fun _ =>
         run emit (EvWarn "Tauri dictionary lookup failed, falling back to online:") in
         ret false)
  else ret false.

(** The second [try] block. *)
Definition online_stage (rt : runtime) (word : string) : M unit :=
  try_catch
    (let* onlineResults := fetchOnlineDefinition rt word in
     match onlineResults with
     | _ :: _ =>
         run setDefinitions onlineResults in
         setSource (Some online)
     | [] => ret tt
     end)
    (fun _ => emit (EvWarn "Online dictionary lookup failed:")).

Definition fetchDefinition (rt : runtime) (word : string) : M unit :=
  run setLoading true in
  run setDefinitions [] in
  run setSource None in
  let* foundLocal := local_stage rt word in
  run (if negb foundLocal then online_stage rt word else ret tt) in
  setLoading false.

(** The effect body: [if (word) fetchDefinition()]. *)
Definition lookup_effect (rt : runtime) (word : string) : M unit :=
  if is_empty word then ret tt else fetchDefinition rt word.

Definition initial_world : world :=
  {| events := []; definitions := []; source := None; loading := true |}.

(** Requests sent to the remote source. *)
Definition is_fetch (ev : event) : bool :=
  match ev with EvFetch _ => true | _ => false end.

Definition remote_calls (w : world) : nat :=
  length (filter (fun ev => is_fetch ev = true) (events w)).

(** Queries sent to the local source. *)
Definition is_invoke (ev : event) : bool :=
  match ev with EvInvoke _ _ => true | _ => false end.

Definition local_calls (w : world) : nat :=
  length (filter (fun ev => is_invoke ev = true) (events w)).

(** The local source of the runtime, when there is one: the Tauri flag is
    set and the imported module has an [invoke] function. *)
Definition local_source (rt : runtime)
  : option (string -> completion (option (list string))) :=
  if isTauri rt then
    match import_core rt with
    | Invoke search_dictionary => Some search_dictionary
    | _ => None
    end
  else None.

(** What the local source answers for [word]: its result set, or nothing
    when it is unavailable, fails or returns [null]. *)
Definition local_answer (rt : runtime) (word : string) : list string :=
  match local_source rt with
  | Some search_dictionary =>
      match search_dictionary (trim word) with
      | Normal (Some results) => results
      | _ => []
      end
  | None => []
  end.

(** The value [fetchOnlineDefinition] resolves with. *)
Definition remote_answer (rt : runtime) (term : string) : list string :=
  match (fetchOnlineDefinition rt term initial_world).1 with
  | Normal defs => defs
  | Throw _ => []
  end.

(** The array [entry.meanings] when the loop enters it. *)
Definition entry_meanings (entry : Json.value) : list Json.value :=
  match Json.get entry "meanings" with
  | Normal (Some (Json.JArr ms)) => ms
  | _ => []
  end.

(** All meanings of a response, entry after entry. *)
Definition response_meanings (entries : list Json.value)
  : list Json.value :=
  flat_map entry_meanings entries.

(** The text of [meaning.partOfSpeech || 'noun'] inside the template. *)
Definition partOfSpeech_text (meaning : Json.value) : completion string :=
  let* pos := partOfSpeech_or_noun meaning in
  Json.ToString_opt pos.

(** [lines] is what one meaning may contribute: at most two lines, each the
    meaning's part of speech in parentheses, a space, and a text. *)
Definition meaning_lines (meaning : Json.value) (lines : list string) : Prop :=
  length lines <= 2 /\
  Forall (fun line => exists pos text,
            partOfSpeech_text meaning = Normal pos
            /\ line = "(" +:+ pos +:+ ") " +:+ text) lines.

(** The string [def.definition], for an element that has one. *)
Definition definition_string (def : Json.value) : option string :=
  match def with
  | Json.JObj fields =>
      match Json.own_property fields "definition" with
      | Some (Json.JStr s) => Some s
      | _ => None
      end
  | _ => None
  end.

(** The events of the local stage. *)
Definition local_events (rt : runtime) (word : string) : list event :=
  let warn := EvWarn "Tauri dictionary lookup failed, falling back to online:" in
  if isTauri rt then
    match import_core rt with
    | ImportRejects => [warn]
    | InvokeNotFunction => []
    | Invoke search_dictionary =>
        EvInvoke "search_dictionary" (trim word) ::
        match search_dictionary (trim word) with
        | Throw _ => [warn]
        | Normal _ => []
        end
    end
  else [].

(** The events of the remote stage. *)
Definition remote_events (term : string) : list event :=
  if rejected (cleanTerm_of term) then []
  else [EvFetch (api_url (cleanTerm_of term))].

(** The world [fetchDefinition] leaves behind, read off the two answers. *)
Definition resolved (rt : runtime) (word : string) (w : world) : world :=
  match local_answer rt word with
  | [] =>
      {| events := events w ++ local_events rt word ++ remote_events word;
         definitions := remote_answer rt word;
         source := match remote_answer rt word with
                   | [] => None
                   | _ => Some online
                   end;
         loading := false |}
  | results =>
      {| events := events w ++ local_events rt word;
         definitions := results; source := Some local; loading := false |}
  end.

(** The runtime [rt] with a local source that is there and answers every
    query with the empty result set. *)
Definition with_empty_local (rt : runtime) : runtime :=
  {| isTauri := true; import_core := Invoke (fun _ => Normal (Some []));
     fetch := fetch rt |}.

(** *** The remote response, read as its interface describes it

    The definitions below do not follow the code.  They read a response as
    the interface of the remote source gives it (an array of entries, each
    with [meanings[].partOfSpeech] and
    [meanings[].definitions[].definition]) and say which lines the
    specification expects, to be compared with what the parser returns. *)

(** The array [meaning.definitions]. *)
Definition meaning_definitions (meaning : Json.value) : list Json.value :=
  match meaning with
  | Json.JObj fields =>
      match Json.own_property fields "definitions" with
      | Some (Json.JArr ds) => ds
      | _ => []
      end
  | _ => []
  end.

(** The part of speech of a meaning: the string in its field
    [partOfSpeech], and [noun] when the field is absent or empty. *)
Definition spec_partOfSpeech (meaning : Json.value) : string :=
  match meaning with
  | Json.JObj fields =>
      match Json.own_property fields "partOfSpeech" with
      | Some (Json.JStr (String c s)) => String c s
      | _ => "noun"
      end
  | _ => "noun"
  end.

(** The non-empty definition texts among the first two definitions of a
    meaning. *)
Definition spec_texts (meaning : Json.value) : list string :=
  filter (fun text => text <> "")
         (omap definition_string (take 2 (meaning_definitions meaning))).

(** The lines expected for one meaning: each of these texts after the part
    of speech of the meaning in parentheses and a space. *)
Definition spec_lines (meaning : Json.value) : list string :=
  map (fun text => "(" +:+ spec_partOfSpeech meaning +:+ ") " +:+ text)
      (spec_texts meaning).

Definition has_definition (def : Json.value) : bool :=
  match definition_string def with Some _ => true | None => false end.

(** A meaning as the interface describes it: an object whose
    [partOfSpeech], if present, is a string, and whose [definitions] is an
    array; the elements the parser looks at are objects with a string
    [definition]. *)
Definition well_formed_meaning (meaning : Json.value) : bool :=
  match meaning with
  | Json.JObj fields =>
      match Json.own_property fields "partOfSpeech" with
      | None | Some (Json.JStr _) => true
      | Some _ => false
      end
      && match Json.own_property fields "definitions" with
         | Some (Json.JArr ds) => forallb has_definition (take 2 ds)
         | _ => false
         end
  | _ => false
  end.

(** An entry as the interface describes it: an object whose [meanings] is
    an array of such meanings. *)
Definition well_formed_entry (entry : Json.value) : bool :=
  match entry with
  | Json.JObj fields =>
      match Json.own_property fields "meanings" with
      | Some (Json.JArr ms) => forallb well_formed_meaning ms
      | _ => false
      end
  | _ => false
  end.

End Dictionary.

(** ** PDFViewer: text-layer spans, the edit store and page rendering *)

Module Viewer.

Import JsString.

(** A non-negative integer inside a template literal. *)
Definition number_text (n : N) : string :=
  NilZero.string_of_uint (N.to_uint n).

Definition is_digit (c : ascii) : bool :=
  ((48 <=? code c) && (code c <=? 57))%N.

Fixpoint all_digits (s : string) : bool :=
  match s with
  | EmptyString => true
  | String c s' => is_digit c && all_digits s'
  end.

(** [`p${pageNum}-s${idx}`] *)
Definition spanId (pageNum : N) (idx : nat) : string :=
  "p" +:+ number_text pageNum +:+ "-s" +:+ number_text (N.of_nat idx).

(** A [span] of the text layer: its text, its [contentEditable] attribute
    and its inline style, a map from property name to value.  What a render
    displays on a fragment is the [textContent] of its span; the colours of
    the style sheets are not part of the model. *)
Record Span : Type := {
  textContent : string;
  contentEditable : bool;
  style : gmap string string
}.

Definition set_textContent (t : string) (sp : Span) : Span :=
  {| textContent := t; contentEditable := contentEditable sp;
     style := style sp |}.

Definition set_contentEditable (b : bool) (sp : Span) : Span :=
  {| textContent := textContent sp; contentEditable := b;
     style := style sp |}.

(** [span.style.prop = v] *)
Definition set_style (prop v : string) (sp : Span) : Span :=
  {| textContent := textContent sp; contentEditable := contentEditable sp;
     style := <[prop := v]> (style sp) |}.

(** [span.style.background = v] with a colour for [v]: the shorthand writes
    the background colour, the one background property that the listeners
    also write as [backgroundColor]. *)
Definition set_background (v : string) (sp : Span) : Span :=
  set_style "backgroundColor" v sp.

Definition dashed_marker : string := "1px dashed var(--accent-color)".

(** A tab of the store, with the fields the viewer reads. *)
Record Tab : Type := {
  tab_id : string;
  edits : option (gmap string string)
}.

(** [tabs.find(t => t.id === tabId)] *)
Fixpoint find_tab (tabs : list Tab) (tabId : string) : option Tab :=
  match tabs with
  | [] => None
  | t :: rest => if String.eqb (tab_id t) tabId then Some t else find_tab rest tabId
  end.

(** Modelled from the spec: [saveEdit] of the tab store, whose module
    [store/useTabStore] is not among the sources.  The store persists
    [{fragmentId: text}] into the edits of the document [tabId]; there is one
    edit per fragment and a later edit overwrites an earlier one. *)
Definition saveEdit (tabs : list Tab) (tabId spanId text : string)
  : list Tab :=
  map (fun t =>
         if String.eqb (tab_id t) tabId then
           {| tab_id := tab_id t;
              edits := Some (<[spanId := text]> (default ∅ (edits t))) |}
         else t) tabs.

(** The component's props and store flags, and the font mapping of
    [utils/pdfFontEngine] (not among the sources), whatever it is. *)
Record Props : Type := {
  tabId : string;
  isEditMode : bool;
  isDarkMode : bool;
  mapPDFFontToCSS : string -> string
}.

Record TextItem : Type := {
  fontName : option string
}.

(** A span after the loop of [renderPage] has processed it: the [spanId]
    its listeners captured, the element, and whether the edit-mode listeners
    were attached. *)
Record Fragment : Type := {
  fragment_id : string;
  fragment_span : Span;
  has_listeners : bool
}.

(** [tab?.edits && tab.edits[spanId]]: the persisted text, when the whole
    chain is truthy. *)
Definition persisted_edit (tab : option Tab) (id : string) : option string :=
  match tab with
  | Some t =>
      match edits t with
      | Some e =>
          match e !! id with
          | Some text => if is_empty text then None else Some text
          | None => None
          end
      | None => None
      end
  | None => None
  end.

(** Restore persisted edit. *)
Definition restore_edit (tab : option Tab) (id : string) (sp : Span) : Span :=
  match persisted_edit tab id with
  | Some text => set_style "borderBottom" dashed_marker (set_textContent text sp)
  | None => sp
  end.

(** [if (item && item.fontName) { ... span.style.fontFamily = fontFamily }] *)
Definition apply_font (props : Props) (item : option TextItem) (sp : Span)
  : Span :=
  match item ≫= fontName with
  | Some name =>
      if is_empty name then sp
      else set_style "fontFamily" (mapPDFFontToCSS props name) sp
  | None => sp
  end.

(** The callback of [spans.forEach((span, idx) => ...)]. *)
Definition span_cb (props : Props) (tab : option Tab) (pageNum : N)
    (items : list TextItem) (idx : nat) (sp : Span) : Fragment :=
  let id := spanId pageNum idx in
  let sp := restore_edit tab id sp in
  let sp := apply_font props (items !! idx) sp in
  if isEditMode props then
    {| fragment_id := id; fragment_span := set_style "cursor" "text" sp;
       has_listeners := true |}
  else
    {| fragment_id := id;
       fragment_span := set_contentEditable false (set_style "cursor" "text" sp);
       has_listeners := false |}.

(** The loop over the spans of one page; [tabs] is the store as
    [currentTabRef.current] sees it. *)
Definition render_spans (props : Props) (tabs : list Tab) (pageNum : N)
    (items : list TextItem) (spans : list Span) : list Fragment :=
  imap (span_cb props (find_tab tabs (tabId props)) pageNum items) spans.

Definition text_color (props : Props) : string :=
  if isDarkMode props then "#e0e6ed" else "#1e293b".

(** The [click] listener. *)
Definition on_click (props : Props) (sp : Span) : Span :=
  set_style "minWidth" "5px"
    (set_style "color" (text_color props)
       (set_style "outlineOffset" "2px"
          (set_style "outline" "2px dashed var(--accent-color)"
             (set_background "rgba(255, 255, 255, 0.1)"
                (set_contentEditable true sp))))).

(** The [blur] listener of the span whose id is [id]. *)
Definition on_blur (props : Props) (id : string) (sp : Span)
    (tabs : list Tab) : Span * list Tab :=
  let sp := set_style "outline" "none" (set_contentEditable false sp) in
  if negb (is_empty (textContent sp))
     && negb (is_empty (trim (textContent sp)))
  then
    (set_style "borderBottom" dashed_marker
       (set_style "textDecoration" "none"
          (set_style "backgroundColor"
             (if isDarkMode props then "#000000" else "#ffffff")
             (set_style "color" (text_color props) sp))),
     saveEdit tabs (tabId props) id (textContent sp))
  else
    (set_background "transparent" (set_style "color" "transparent" sp), tabs).

(** The page's fragments together with the store. *)
Definition Session : Type := list Fragment * list Tab.

Definition click_at (props : Props) (idx : nat) (s : Session) : Session :=
  match s.1 !! idx with
  | Some f =>
      if has_listeners f then
        (<[idx := {| fragment_id := fragment_id f;
                     fragment_span := on_click props (fragment_span f);
                     has_listeners := true |}]> s.1, s.2)
      else s
  | None => s
  end.

(** The user replaces the text of a span that is being edited. *)
Definition input_at (idx : nat) (text : string) (s : Session) : Session :=
  match s.1 !! idx with
  | Some f =>
      if contentEditable (fragment_span f) then
        (<[idx := {| fragment_id := fragment_id f;
                     fragment_span := set_textContent text (fragment_span f);
                     has_listeners := has_listeners f |}]> s.1, s.2)
      else s
  | None => s
  end.

Definition blur_at (props : Props) (idx : nat) (s : Session) : Session :=
  match s.1 !! idx with
  | Some f =>
      if has_listeners f then
        let r := on_blur props (fragment_id f) (fragment_span f) s.2 in
        (<[idx := {| fragment_id := fragment_id f; fragment_span := r.1;
                     has_listeners := true |}]> s.1, r.2)
      else s
  | None => s
  end.

(** The [keydown] listener: [Enter] blurs the span, which runs the [blur]
    listener; other keys are left to the browser. *)
Definition keydown_at (props : Props) (idx : nat) (key : string)
    (s : Session) : Session :=
  if String.eqb key "Enter" then blur_at props idx s else s.

(** Activation, replacement of the text by [text], deactivation. *)
Definition commit_text (props : Props) (idx : nat) (text : string)
    (s : Session) : Session :=
  blur_at props idx (input_at idx text (click_at props idx s)).

(** *** Loading a document *)

Inductive text_layer : Type :=
| TextLayerUndefined                     (* pdfjs.TextLayer is falsy *)
| TextLayerThrows                        (* construction or render() fails *)
| TextLayerSpans (spans : list Span).    (* the spans render() leaves *)

(** What pdf.js and the canvas do for one page. *)
Record PageSource : Type := {
  getPage_ok : bool;                      (* pdf.getPage(pageNum) resolves *)
  context_ok : bool;                      (* canvas.getContext('2d') is not null *)
  render_ok : bool;                       (* page.render(...).promise resolves *)
  getTextContent : option (list TextItem);  (* None: the promise rejects *)
  textLayer : text_layer
}.

Record PdfSource : Type := {
  getDocument_ok : bool;                  (* loadingTask.promise resolves *)
  pages : list PageSource                 (* numPages = length pages *)
}.

(** A page container inside the viewer's container. *)
Record PageBox : Type := {
  page_number : N;
  appended_while_active : bool;   (* value of [active] when it was appended *)
  canvas_rendered : bool;
  box_fragments : list Fragment
}.

Inductive log_entry : Type :=
| LogError (message : string)
| LogWarn (message : string).

Record View : Type := {
  active : bool;                  (* the flag of the effect *)
  containerRef : bool;            (* containerRef.current is not null *)
  container : list PageBox;
  console : list log_entry;
  awaits : nat                    (* suspensions so far *)
}.

(** When the effect's cleanup runs: during the suspension numbered
    [cleanup_at], counting from 0.  [unmounts] tells whether the component is
    unmounted with it, which detaches [containerRef]; a change of [path],
    [isEditMode] or [isDarkMode] runs the cleanup and keeps the ref. *)
Record Schedule : Type := {
  cleanup_at : option nat;
  unmounts : bool
}.

(** The cleanup of the effect: [active = false]. *)
Definition cleanup (sch : Schedule) (v : View) : View :=
  {| active := false;
     containerRef := if unmounts sch then false else containerRef v;
     container := container v; console := console v; awaits := awaits v |}.

(** The view when a suspended function resumes: the cleanup has run if it
    was due during this suspension. *)
Definition resumed (sch : Schedule) (v : View) : View :=
  let v' := if decide (cleanup_at sch = Some (awaits v))
            then cleanup sch v else v in
  {| active := active v'; containerRef := containerRef v';
     container := container v'; console := console v';
     awaits := S (awaits v') |}.

(** One [await]: the function is suspended, the cleanup may run. *)
Definition await_ (sch : Schedule) : StateErr View unit :=
  modify (resumed sch).

Definition set_container (f : View -> list PageBox) (v : View) : View :=
  {| active := active v; containerRef := containerRef v;
     container := f v; console := console v; awaits := awaits v |}.

Definition log (e : log_entry) : StateErr View unit :=
  modify (fun v =>
    {| active := active v; containerRef := containerRef v;
       container := container v; console := console v ++ [e];
       awaits := awaits v |}).

(** [containerRef.current?.appendChild(pageContainer)] *)
Definition appendChild (pageNum : N) : StateErr View bool :=
  let* attached := gets containerRef in
  run (if attached then
         modify (set_container (fun v =>
           container v ++
           [{| page_number := pageNum; appended_while_active := active v;
               canvas_rendered := false; box_fragments := [] |}]))
       else ret tt) in
  ret attached.

(** Later changes to a page container that was appended. *)
Definition update_box (appended : bool) (pageNum : N)
    (f : PageBox -> PageBox) : StateErr View unit :=
  if appended then
    modify (set_container (fun v =>
      map (fun b => if (page_number b =? pageNum)%N then f b else b)
          (container v)))
  else ret tt.

Definition mark_rendered (b : PageBox) : PageBox :=
  {| page_number := page_number b;
     appended_while_active := appended_while_active b;
     canvas_rendered := true; box_fragments := box_fragments b |}.

Definition set_fragments (fs : list Fragment) (b : PageBox) : PageBox :=
  {| page_number := page_number b;
     appended_while_active := appended_while_active b;
     canvas_rendered := canvas_rendered b; box_fragments := fs |}.

Definition renderPage (sch : Schedule) (props : Props) (tabs : list Tab)
    (pageNum : N) (p : PageSource) : StateErr View unit :=
  run await_ sch in                          (* await pdf.getPage(pageNum) *)
  if negb (getPage_ok p) then lift (Throw PdfError)
  else if negb (context_ok p) then ret tt   (* if (!context) return *)
  else
    let* appended := appendChild pageNum in
    run await_ sch in                        (* await page.render(...).promise *)
    if negb (render_ok p) then lift (Throw PdfError)
    else
      run update_box appended pageNum mark_rendered in
      run await_ sch in                      (* await page.getTextContent() *)
      match getTextContent p with
      | None => lift (Throw PdfError)
      | Some items =>
          try_catch
            (match textLayer p with
             | TextLayerUndefined => ret tt
             | TextLayerThrows =>
                 run await_ sch in           (* await textLayer.render() *)
                 lift (Throw PdfError)
             | TextLayerSpans spans =>
                 run await_ sch in           (* await textLayer.render() *)
                 update_box appended pageNum
                   (set_fragments (render_spans props tabs pageNum items spans))
             end)
            (fun _ => log (LogWarn "Text layer rendering issue:"))
      end.

(** [for (let i = 1; i <= pdf.numPages; i++) await renderPage(pdf, i)],
    from page [i] on. *)
Fixpoint render_pages (sch : Schedule) (props : Props) (tabs : list Tab)
    (i : N) (ps : list PageSource) : StateErr View unit :=
  match ps with
  | [] => ret tt
  | p :: rest =>
      run renderPage sch props tabs i p in
      render_pages sch props tabs (i + 1) rest
  end.

(** The drawing on the canvas (with its dark-mode filter) and the timer
    that restores the scroll position after the loop do not touch the
    container's children and are left out. *)
Definition loadPdf (sch : Schedule) (props : Props) (tabs : list Tab)
    (pdf : PdfSource) : StateErr View unit :=
  try_catch
    (run await_ sch in                       (* await loadingTask.promise *)
     if negb (getDocument_ok pdf) then lift (Throw PdfError)
     else
       let* still_active := gets active in
       if negb still_active then ret tt     (* if (!active) return *)
       else
         let* attached := gets containerRef in
         if attached then
           run modify (set_container (fun _ => [])) in   (* innerHTML = '' *)
           render_pages sch props tabs 1 (pages pdf)
         else ret tt)
    (fun _ => log (LogError "Error loading PDF:")).

(** The effect starts with [active = true] and a mounted container. *)
Definition mounted (previous : list PageBox) : View :=
  {| active := true; containerRef := true; container := previous;
     console := []; awaits := 0 |}.

Definition no_cleanup : Schedule := {| cleanup_at := None; unmounts := false |}.

(** Page numbers in the container, in order. *)
Definition page_numbers (v : View) : list N := map page_number (container v).

(** Pages appended after the flag was cleared. *)
Definition stale_pages (v : View) : list N :=
  map page_number
    (filter (fun b => appended_while_active b = false) (container v)).

(** [renderPage] rejects for this page: the page cannot be fetched, or it
    has a canvas context and cannot be rasterised or yields no text
    content. *)
Definition page_fails (p : PageSource) : bool :=
  negb (getPage_ok p)
  || context_ok p
     && (negb (render_ok p)
         || match getTextContent p with None => true | Some _ => false end).

(** [renderPage] reaches [appendChild] for this page. *)
Definition page_appends (p : PageSource) : bool :=
  getPage_ok p && context_ok p.

(** The numbers, counted from [i], of the pages that reach [appendChild]. *)
Fixpoint appended_numbers (i : N) (ps : list PageSource) : list N :=
  match ps with
  | [] => []
  | p :: rest =>
      (if page_appends p then [i] else []) ++ appended_numbers (i + 1) rest
  end.

(** The pages the loop gets to: all pages up to and including the first
    one for which [renderPage] rejects. *)
Fixpoint attempted (ps : list PageSource) : list PageSource :=
  match ps with
  | [] => []
  | p :: rest => p :: (if page_fails p then [] else attempted rest)
  end.

(** The warning of the inner [catch], for a page that gets as far as the
    text layer and whose text layer throws. *)
Definition page_warnings (p : PageSource) : list log_entry :=
  if negb (page_fails p) && page_appends p then
    match textLayer p with
    | TextLayerThrows => [LogWarn "Text layer rendering issue:"]
    | _ => []
    end
  else [].

Definition is_error (e : log_entry) : bool :=
  match e with LogError _ => true | LogWarn _ => false end.

(** [console.error] messages. *)
Definition errors (v : View) : list log_entry :=
  filter (fun e => is_error e = true) (console v).

End Viewer.

(** ** Inputs used in the examples *)

Module Examples.

Import Dictionary Viewer.

(** A browser tab: no Tauri, and the network is down. *)
Definition browser_runtime : runtime :=
  {| isTauri := false; import_core := ImportRejects;
     fetch := fun _ => Throw NetworkError |}.

(** The desktop application with a local dictionary that knows the
    word [a]. *)
Definition desktop_runtime : runtime :=
  {| isTauri := true;
     import_core := Invoke (fun word =>
       Normal (Some (if String.eqb word "a"
                     then ["a: the first letter of the alphabet"] else [])));
     fetch := fun _ => Throw NetworkError |}.

(** One entry with two meanings; the second has no part of speech. *)
Definition serendipity_entry : Json.value :=
  Json.JObj
    [("word", Json.JStr "serendipity");
     ("meanings",
      Json.JArr
        [Json.JObj
           [("partOfSpeech", Json.JStr "noun");
            ("definitions",
             Json.JArr
               [Json.JObj [("definition", Json.JStr "a happy accident")];
                Json.JObj [("definition", Json.JStr "a knack for finding")];
                Json.JObj [("definition", Json.JStr "a third sense")]])];
         Json.JObj
           [("definitions",
             Json.JArr
               [Json.JObj [("definition", Json.JStr "good luck")];
                Json.JObj [("definition", Json.JStr "fortune")]])]])].

(** A browser tab whose network answers every request with that entry. *)
Definition online_runtime : runtime :=
  {| isTauri := false; import_core := ImportRejects;
     fetch := fun _ =>
       Normal {| ok := true; json := Normal (Json.JArr [serendipity_entry]) |} |}.

Definition editing_props : Props :=
  {| tabId := "t1"; isEditMode := true; isDarkMode := false;
     mapPDFFontToCSS := fun name => name |}.

Definition original_span : Span :=
  {| textContent := "orig"; contentEditable := false; style := ∅ |}.

(** A store whose tab [t1] has an edit for the first span of page 1. *)
Definition edited_tabs : list Tab :=
  [{| tab_id := "t1"; edits := Some {[ "p1-s0" := "hello" ]} |}].

Definition fresh_tabs : list Tab :=
  [{| tab_id := "t1"; edits := Some ∅ |}].

Definition good_page : PageSource :=
  {| getPage_ok := true; context_ok := true; render_ok := true;
     getTextContent := Some [];
     textLayer := TextLayerSpans [original_span] |}.

Definition unreadable_page : PageSource :=
  {| getPage_ok := false; context_ok := true; render_ok := true;
     getTextContent := Some [];
     textLayer := TextLayerSpans [original_span] |}.

(** The cleanup runs while the first page is being rasterised (suspension
    0 is the document load, 1 is [getPage] of page 1, 2 is its [render]); the
    viewer stays mounted, as when dark mode is toggled. *)
Definition toggle_during_first_render : Schedule :=
  {| cleanup_at := Some 2; unmounts := false |}.

(** The desktop application whose local dictionary fails on every query,
    with a network that answers like [online_runtime]. *)
Definition broken_desktop_runtime : runtime :=
  {| isTauri := true;
     import_core := Invoke (fun _ => Throw CommandError);
     fetch := fetch online_runtime |}.

(** One entry with three meanings: a verb with three definitions, an
    adjective with one, and a meaning without a part of speech. *)
Definition crowded_entry : Json.value :=
  Json.JObj
    [("word", Json.JStr "run");
     ("meanings",
      Json.JArr
        [Json.JObj
           [("partOfSpeech", Json.JStr "verb");
            ("definitions",
             Json.JArr
               [Json.JObj [("definition", Json.JStr "to move fast")];
                Json.JObj [("definition", Json.JStr "to flow")];
                Json.JObj [("definition", Json.JStr "to manage")]])];
         Json.JObj
           [("partOfSpeech", Json.JStr "adjective");
            ("definitions",
             Json.JArr [Json.JObj [("definition", Json.JStr "melted")]])];
         Json.JObj
           [("definitions",
             Json.JArr [Json.JObj [("definition", Json.JStr "a race")]])]])].

Definition crowded_runtime : runtime :=
  {| isTauri := false; import_core := ImportRejects;
     fetch := fun _ =>
       Normal {| ok := true; json := Normal (Json.JArr [crowded_entry]) |} |}.

End Examples.

(** ** Text selection: the [mouseup] handlers of the two viewers *)

Module Selection.

Import JsString.

(** [s.replace(/\s+/g, ' ')]: every maximal run of white space becomes one
    space.  [in_run] tells that the previous code unit was white space. *)
Fixpoint collapse_ws_from (in_run : bool) (s : string) : string :=
  match s with
  | EmptyString => EmptyString
  | String c s' =>
      if is_js_space c then
        if in_run then collapse_ws_from true s'
        else String " " (collapse_ws_from true s')
      else String c (collapse_ws_from false s')
  end.

Definition collapse_ws (s : string) : string := collapse_ws_from false s.

(** CR and LF, the class of the second replacement. *)
Definition is_crlf (c : ascii) : bool :=
  ((code c =? 13) || (code c =? 10))%N.

(** [s.replace(/[\r\n]+/g, ' ')] *)
Fixpoint collapse_crlf_from (in_run : bool) (s : string) : string :=
  match s with
  | EmptyString => EmptyString
  | String c s' =>
      if is_crlf c then
        if in_run then collapse_crlf_from true s'
        else String " " (collapse_crlf_from true s')
      else String c (collapse_crlf_from false s')
  end.

Definition collapse_crlf (s : string) : string := collapse_crlf_from false s.

(** The basic cleaning of the react-pdf viewer:
    [text.trim().replace(/\s+/g, ' ').replace(/[\r\n]+/g, ' ').trim()]. *)
Definition cleanedText (text : string) : string :=
  trim (collapse_crlf (collapse_ws (trim text))).

(** The words of a string: the pieces of [split(/\s+/)] that are not
    empty, that is, its maximal runs of code units other than white space. *)
Definition words (s : string) : list string :=
  filter (fun piece => piece <> EmptyString) (split_ws s).

(** A string free of white space. *)
Definition space_free (s : string) : Prop :=
  forall c, In c (list_ascii_of_string s) -> is_js_space c = false.

(** The words joined by single spaces. *)
Fixpoint unwords (ws : list string) : string :=
  match ws with
  | [] => EmptyString
  | [w] => w
  | w :: rest => w +:+ " " +:+ unwords rest
  end.

(** The text of a piece list whose first piece is being read: the first
    piece, then the later words, a space before each. *)
Definition after_piece (pieces : list string) : string :=
  match pieces with
  | [] => EmptyString
  | p :: rest =>
      match filter (fun piece => piece <> EmptyString) rest with
      | [] => p
      | ws => p +:+ " " +:+ unwords ws
      end
  end.

Section Handlers.

(** Coordinates are JavaScript numbers; the handlers only add two of them
    and halve one, whatever these operations are. *)
Context {Num : Type} (plus : Num -> Num -> Num) (half : Num -> Num).

(** [range.getBoundingClientRect()] *)
Record Rect : Type := {
  left : Num;
  top : Num;
  bottom : Num;
  width : Num
}.

(** [window.getSelection()], when it is not null: its text, the rectangles
    of its ranges ([rangeCount] is their number) and [isCollapsed]. *)
Record DomSelection : Type := {
  toString : string;
  ranges : list Rect;
  isCollapsed : bool
}.

(** The callbacks a handler may call. *)
Inductive call : Type :=
| OnSelection (text : string) (x y : Num)
| OnScroll.

(** [selection.getRangeAt(0).getBoundingClientRect()]; [getRangeAt] throws
    when the selection has no range. *)
Definition first_rect (sel : DomSelection) : completion Rect :=
  match ranges sel with
  | r :: _ => Normal r
  | [] => Throw TypeError
  end.

(** [handleMouseUp] of components/PDFViewer.tsx. *)
Definition handleMouseUp (isEditMode : bool) (selection : option DomSelection)
  : completion (list call) :=
  if isEditMode then ret []
  else
    let selectedText :=
      match selection with
      | Some sel => trim (toString sel)     (* '' || '' is '' *)
      | None => EmptyString
      end in
    match selection with
    | Some sel =>
        if (0 <? String.length selectedText)%nat then
          let* rect := first_rect sel in
          ret [OnSelection selectedText
                 (plus (left rect) (half (width rect))) (top rect)]
        else ret []
    | None => ret []
    end.

(** [handleMouseUp] of the react-pdf viewer; [has_onScroll] tells whether
    the optional prop [onScroll] was given. *)
Definition handleMouseUp_reactPdf (isEditMode has_onScroll : bool)
    (selection : option DomSelection) : completion (list call) :=
  if isEditMode then ret []
  else
    match selection with
    | Some sel =>
        if (length (ranges sel) =? 0)%nat || isCollapsed sel then
          ret (if has_onScroll then [OnScroll] else [])
        else
          let cleaned := cleanedText (toString sel) in
          if (2 <=? String.length cleaned)%nat then
            let* rect := first_rect sel in
            ret [OnSelection cleaned
                   (plus (left rect) (half (width rect))) (bottom rect)]
          else ret []
    | None => ret (if has_onScroll then [OnScroll] else [])
    end.

End Handlers.

Arguments left {Num} _.
Arguments top {Num} _.
Arguments bottom {Num} _.
Arguments width {Num} _.
Arguments toString {Num} _.
Arguments ranges {Num} _.
Arguments isCollapsed {Num} _.
Arguments OnSelection {Num} text x y.
Arguments OnScroll {Num}.

(** The page list of the react-pdf viewer:
    [Array.from(new Array(numPages), (_, index) => ...)] with the key
    [`page_${index + 1}`] and the page number [index + 1]. *)
Definition page_key (index : nat) : string :=
  "page_" +:+ Viewer.number_text (N.of_nat index + 1).

Definition page_list (numPages : nat) : list (string * N) :=
  map (fun index => (page_key index, (N.of_nat index + 1)%N)) (seq 0 numPages).

End Selection.

(** ** DictionaryBubble: what it shows and when it closes *)

Module Bubble.

Import JsString Dictionary.

(** The header: [word.length > 25 ? word.substring(0, 22) + '...' : word] *)
Definition header_text (word : string) : string :=
  if (25 <? String.length word)%nat
  then String.substring 0 22 word +:+ "..."
  else word.




(** The events the second effect listens to.  [inside_glass] tells whether
    [target.closest('.glass')] finds an element. *)
Inductive dom_event : Type :=
| MouseDown (inside_glass : bool)
| ContextMenu
| KeyDown (key : string).

Inductive bubble_call : Type :=
| PreventDefault
| OnClose.

(** The listeners on [document], the timer that registers the [mousedown]
    listener, and the calls made so far. *)
Record Listeners : Type := {
  timer_pending : bool;
  on_mousedown : bool;
  on_contextmenu : bool;
  on_keydown : bool;
  calls : list bubble_call
}.

(** The effect body: the timer is set, two listeners are registered. *)
Definition mount : Listeners :=
  {| timer_pending := true; on_mousedown := false; on_contextmenu := true;
     on_keydown := true; calls := [] |}.

Definition call_all (cs : list bubble_call) (st : Listeners) : Listeners :=
  {| timer_pending := timer_pending st; on_mousedown := on_mousedown st;
     on_contextmenu := on_contextmenu st; on_keydown := on_keydown st;
     calls := calls st ++ cs |}.

(** The browser dispatches an event to the listeners that are registered. *)
Definition dispatch (e : dom_event) (st : Listeners) : Listeners :=
  match e with
  | MouseDown inside_glass =>           (* handleClickOutside *)
      if on_mousedown st && negb inside_glass
      then call_all [OnClose] st else st
  | ContextMenu =>                      (* handleContextMenu *)
      if on_contextmenu st
      then call_all [PreventDefault; OnClose] st else st
  | KeyDown key =>                      (* handleEscape *)
      if on_keydown st && String.eqb key "Escape"
      then call_all [OnClose] st else st
  end.

(** The timer set by [setTimeout(..., 150)] fires, unless it was cleared. *)
Definition timer_fires (st : Listeners) : Listeners :=
  if timer_pending st then
    {| timer_pending := false; on_mousedown := true;
       on_contextmenu := on_contextmenu st; on_keydown := on_keydown st;
       calls := calls st |}
  else st.

(** The cleanup of the effect: [clearTimeout] and three
    [removeEventListener]. *)
Definition cleanup (st : Listeners) : Listeners :=
  {| timer_pending := false; on_mousedown := false; on_contextmenu := false;
     on_keydown := false; calls := calls st |}.

Inductive step_event : Type :=
| Dispatch (e : dom_event)
| TimerFires
| Cleanup.

Definition step (st : Listeners) (ev : step_event) : Listeners :=
  match ev with
  | Dispatch e => dispatch e st
  | TimerFires => timer_fires st
  | Cleanup => cleanup st
  end.

Definition run_events (st : Listeners) (evs : list step_event) : Listeners :=
  fold_left step evs st.

End Bubble.

(** ** PDFViewer: saving the scroll position *)

Module ScrollSave.

Section Debounce.

(** [scrollTop] is a JavaScript number that the code only passes on. *)
Context {Num : Type}.

(** The timers of the browser that are still due ([live]), the variable
    [scrollTimeout], the id the next [setTimeout] returns, the position of
    the container, whether its [scroll] listener is registered, whether
    [containerRef.current] is set, and the positions passed to
    [updateTab]. *)
Record Saver : Type := {
  live : list positive;
  scrollTimeout : option positive;
  next_id : positive;
  scrollTop : Num;
  listening : bool;
  attached : bool;
  updates : list Num
}.

(** The effect has run: [container?.addEventListener('scroll', ...)]. *)
Definition start (next : positive) (top : Num) (is_attached : bool) : Saver :=
  {| live := []; scrollTimeout := None; next_id := next; scrollTop := top;
     listening := is_attached; attached := is_attached; updates := [] |}.

(** [clearTimeout(id)] *)
Definition clearTimeout (id : positive) (timers : list positive)
  : list positive :=
  filter (fun t => t <> id) timers.

(** [handleScroll]: the timer of the previous event is cleared and a new
    one is set. *)
Definition handleScroll (st : Saver) : Saver :=
  let timers :=
    match scrollTimeout st with
    | Some id => clearTimeout id (live st)
    | None => live st
    end in
  {| live := next_id st :: timers; scrollTimeout := Some (next_id st);
     next_id := Pos.succ (next_id st); scrollTop := scrollTop st;
     listening := listening st; attached := attached st;
     updates := updates st |}.

(** The container scrolls to [y]; its listener, if registered, runs. *)
Definition scroll (y : Num) (st : Saver) : Saver :=
  let moved :=
    {| live := live st; scrollTimeout := scrollTimeout st;
       next_id := next_id st; scrollTop := y; listening := listening st;
       attached := attached st; updates := updates st |} in
  if listening st then handleScroll moved else moved.

(** The timer [id] is due: if it is still live, its callback saves the
    position the container has now, provided the container is attached. *)
Definition fire (id : positive) (st : Saver) : Saver :=
  if decide (id ∈ live st) then
    {| live := clearTimeout id (live st); scrollTimeout := scrollTimeout st;
       next_id := next_id st; scrollTop := scrollTop st;
       listening := listening st; attached := attached st;
       updates := if attached st then updates st ++ [scrollTop st]
                  else updates st |}
  else st.

(** The cleanup of the effect; [unmounts] as for the page loop. *)
Definition cleanup (unmounts : bool) (st : Saver) : Saver :=
  {| live := match scrollTimeout st with
             | Some id => clearTimeout id (live st)
             | None => live st
             end;
     scrollTimeout := scrollTimeout st; next_id := next_id st;
     scrollTop := scrollTop st; listening := false;
     attached := if unmounts then false else attached st;
     updates := updates st |}.

Inductive event : Type :=
| Scroll (y : Num)
| Fire (id : positive)
| Cleanup (unmounts : bool).

Definition step (st : Saver) (ev : event) : Saver :=
  match ev with
  | Scroll y => scroll y st
  | Fire id => fire id st
  | Cleanup unmounts => cleanup unmounts st
  end.

Definition run_events (st : Saver) (evs : list event) : Saver :=
  fold_left step evs st.

Definition is_scroll (ev : event) : bool :=
  match ev with Scroll _ => true | _ => false end.

(** Number of scroll events in a trace. *)
Definition scrolls (evs : list event) : nat :=
  length (filter (fun ev => is_scroll ev = true) evs).

(** At most one timer is due, and it is the one held by
    [scrollTimeout]. *)
Definition one_timer (st : Saver) : Prop :=
  live st = [] \/ exists id, live st = [id] /\ scrollTimeout st = Some id.

End Debounce.

End ScrollSave.

(** ** PDFViewer: the dark-mode patch of [drawImage] *)

Module Canvas.

(** The part of the drawing state that the code sets. *)
Record DrawingState : Type := {
  filter : string;
  fillStyle : string
}.

Record Image : Type := {
  image_name : string;
  drawable : bool          (* false: the native drawImage throws *)
}.

(** What has been put on the canvas, with the filter in force. *)
Inductive paint : Type :=
| PaintImage (image : string) (under_filter : string)
| PaintRect (fill under_filter : string).

Record Context2D : Type := {
  current : DrawingState;
  saved : list DrawingState;   (* the stack of save() *)
  painted : list paint
}.

Definition set_current (d : DrawingState) (ctx : Context2D) : Context2D :=
  {| current := d; saved := saved ctx; painted := painted ctx |}.

(** [context.save()] *)
Definition save (ctx : Context2D) : Context2D :=
  {| current := current ctx; saved := current ctx :: saved ctx;
     painted := painted ctx |}.

(** [context.restore()]: nothing happens on an empty stack. *)
Definition restore (ctx : Context2D) : Context2D :=
  match saved ctx with
  | d :: rest => {| current := d; saved := rest; painted := painted ctx |}
  | [] => ctx
  end.

(** [context.filter = f] *)
Definition set_filter (f : string) (ctx : Context2D) : Context2D :=
  set_current {| filter := f; fillStyle := fillStyle (current ctx) |} ctx.

(** [context.fillStyle = s] *)
Definition set_fillStyle (s : string) (ctx : Context2D) : Context2D :=
  set_current {| filter := filter (current ctx); fillStyle := s |} ctx.

Definition put (p : paint) (ctx : Context2D) : Context2D :=
  {| current := current ctx; saved := saved ctx;
     painted := painted ctx ++ [p] |}.

(** The native [drawImage]. *)
Definition originalDrawImage (img : Image) : StateErr Context2D unit :=
  fun ctx =>
    if drawable img
    then (Normal tt, put (PaintImage (image_name img) (filter (current ctx))) ctx)
    else (Throw TypeError, ctx).

Definition dark_filter : string := "invert(1) hue-rotate(180deg)".

(** The function that replaces [context.drawImage] in dark mode. *)
Definition patchedDrawImage (img : Image) : StateErr Context2D unit :=
  run modify save in
  run modify (set_filter dark_filter) in
  run originalDrawImage img in
  modify restore.

(** [context.drawImage] after the patch block of [renderPage]. *)
Definition drawImage (isDarkMode : bool) (img : Image)
  : StateErr Context2D unit :=
  if isDarkMode then patchedDrawImage img else originalDrawImage img.

(** The calls the page renderer may make on the context. *)
Inductive op : Type :=
| Save
| Restore
| SetFilter (f : string)
| SetFillStyle (s : string)
| FillRect
| DrawImage (img : Image).

Definition perform (isDarkMode : bool) (o : op) : StateErr Context2D unit :=
  match o with
  | Save => modify save
  | Restore => modify restore
  | SetFilter f => modify (set_filter f)
  | SetFillStyle s => modify (set_fillStyle s)
  | FillRect =>
      modify (fun ctx =>
        put (PaintRect (fillStyle (current ctx)) (filter (current ctx))) ctx)
  | DrawImage img => drawImage isDarkMode img
  end.

Fixpoint perform_all (isDarkMode : bool) (ops : list op)
  : StateErr Context2D unit :=
  match ops with
  | [] => ret tt
  | o :: rest =>
      run perform isDarkMode o in
      perform_all isDarkMode rest
  end.

(** [fillStyle = 'white'; fillRect(...)] of [renderPage], before the page
    is rendered. *)
Definition white_background : list op := [SetFillStyle "white"; FillRect].

(** An image as dark mode paints it. *)
Definition darken (p : paint) : paint :=
  match p with
  | PaintImage image _ => PaintImage image dark_filter
  | PaintRect fill under => PaintRect fill under
  end.

(** The light and the dark context after the same calls on a context that
    had the paints [base]: the same drawing state and stack, the same new
    paints but for the filter of the images. *)
Definition same_but_dark (base : list paint) (light dark : Context2D)
  : Prop :=
  current dark = current light /\ saved dark = saved light
  /\ exists paints,
       painted light = base ++ paints
       /\ painted dark = base ++ (darken <$> paints).

End Canvas.

(** ** App: opening a file, the deep dive and the selection *)

Module App.

Import JsString.

(** The class [[\\/]]: slash and backslash. *)
Definition is_separator (c : ascii) : bool :=
  ((code c =? 47) || (code c =? 92))%N.

(** [s.split(/[\\/]/)]: every separator ends a piece. *)
Fixpoint split_path (s : string) : list string :=
  match s with
  | EmptyString => [EmptyString]
  | String c s' =>
      if is_separator c then EmptyString :: split_path s'
      else
        match split_path s' with
        | piece :: rest => String c piece :: rest
        | [] => [String c EmptyString]
        end
  end.

(** [selected.split(/[\\/]/).pop() || 'Document.pdf'] *)
Definition tab_name (selected : string) : string :=
  match last (split_path selected) with
  | Some piece => if is_empty piece then "Document.pdf" else piece
  | None => "Document.pdf"
  end.

(** What [await open({multiple: false, ...})] resolves with. *)
Inductive dialog_result : Type :=
| Dismissed                       (* null *)
| OnePath (path : string)
| ManyPaths (paths : list string).

(** Where [handleOpenFile] runs: the desktop application
    ([window.__TAURI__] is truthy) with the outcome of the dialog, or a
    browser with the file of the [change] event, if there is one, as its
    name and the object URL made for it. *)
Inductive environment : Type :=
| Desktop (selected : completion dialog_result)
| Browser (file : option (string * string)).

Inductive open_call : Type :=
| AddTab (name url : string)
| ConsoleError.                  (* console.error('Failed to open file:') *)

(** [handleOpenFile]; [convertFileSrc] is the function of the Tauri API. *)
Definition handleOpenFile (convertFileSrc : string -> string)
    (env : environment) : list open_call :=
  match env with
  | Desktop (Throw _) => [ConsoleError]
  | Desktop (Normal (OnePath path)) =>
      if is_empty path then []
      else [AddTab (tab_name path) (convertFileSrc path)]
  | Desktop (Normal _) => []
  | Browser (Some (name, url)) => [AddTab name url]
  | Browser None => []
  end.

(** [name] holds no slash and no backslash. *)
Fixpoint separator_free (name : string) : bool :=
  match name with
  | EmptyString => true
  | String c name' => negb (is_separator c) && separator_free name'
  end.

(** The value of [err.message] in the handler of [handleDeepDive]. *)
Inductive message : Type :=
| NoMessage                      (* null or undefined *)
| Message (text : string).

Inductive deep_call : Type :=
| SetError (m : message)
| SetIsSettingsOpen (b : bool)
| SetLoading (b : bool)
| SetSelection_null
| AnalyzeTextWithGroq (text context apiKey : string)
| SetAnalysis (result : string).

(** What the analysis service does: it resolves with a text, or rejects
    with a value; [None] is a rejection with [null] or [undefined], whose
    [message] cannot be read. *)
Inductive analysis : Type :=
| Resolves (result : string)
| Rejects (err : option message).

(** [handleDeepDive], as the calls it makes and how it completes.  An empty
    key is falsy like a missing one. *)
Definition handleDeepDive (apiKey : option string)
    (service : string -> string -> string -> analysis) (text : string)
  : completion unit * list deep_call :=
  match apiKey with
  | Some (String k key) =>
      let key := String k key in
      let before :=
        [SetLoading true; SetError NoMessage; SetSelection_null;
         AnalyzeTextWithGroq text text key] in
      match service text text key with
      | Resolves result =>
          (Normal tt, before ++ [SetAnalysis result; SetLoading false])
      | Rejects (Some m) =>
          (Normal tt, before ++ [SetError m; SetLoading false])
      | Rejects None =>
          (* err.message throws inside catch; finally still runs *)
          (Throw TypeError, before ++ [SetLoading false])
      end
  | _ =>
      (Normal tt,
       [SetError (Message "Please connect your Groq API key in the top right menu.");
        SetIsSettingsOpen true])
  end.

Definition is_analysis_call (c : deep_call) : bool :=
  match c with AnalyzeTextWithGroq _ _ _ => true | _ => false end.

(** The calls of the analysis service among [calls]. *)
Definition analysis_calls (calls : list deep_call) : list deep_call :=
  filter (fun c => is_analysis_call c = true) calls.

Section SelectionState.

Context {Num : Type} (plus : Num -> Num -> Num) (half : Num -> Num).

(** The state of [App] that decides whether the bubble is shown, and the
    number of [removeAllRanges] calls. *)
Record AppState : Type := {
  isEditMode : bool;
  selection : option (string * Num * Num);
  ranges_removed : nat
}.

(** [handleSelection] *)
Definition handleSelection (text : string) (x y : Num) (st : AppState)
  : AppState :=
  if isEditMode st then st
  else {| isEditMode := false; selection := Some (text, x, y);
          ranges_removed := ranges_removed st |}.

(** [handleScroll]: [setSelection(prev => ...)] *)
Definition handleScroll (st : AppState) : AppState :=
  match selection st with
  | Some _ =>
      {| isEditMode := isEditMode st; selection := None;
         ranges_removed := S (ranges_removed st) |}
  | None => st
  end.

(** [setSelection(null)] *)
Definition clear_selection (st : AppState) : AppState :=
  {| isEditMode := isEditMode st; selection := None;
     ranges_removed := ranges_removed st |}.

Inductive app_event : Type :=
| MouseUp (sel : option (Selection.DomSelection (Num := Num)))
| ViewerScroll              (* the container of the viewer scrolls *)
| TabClick                  (* setActiveTab(tab.id); setSelection(null) *)
| BubbleClose               (* onClose of the bubble *)
| DeepDive (has_key : bool) (* onDeepDive of the bubble *)
| EditMode (b : bool).      (* the store's isEditMode becomes b *)

(** One event.  A [mouseup] runs the viewer's handler with the store's
    [isEditMode]; a handler that throws changes nothing. *)
Definition app_step (st : AppState) (ev : app_event) : AppState :=
  match ev with
  | MouseUp sel =>
      match Selection.handleMouseUp plus half (isEditMode st) sel with
      | Normal calls =>
          fold_left
            (fun st c =>
               match c with
               | Selection.OnSelection text x y => handleSelection text x y st
               | Selection.OnScroll => handleScroll st
               end) calls st
      | Throw _ => st
      end
  | ViewerScroll => handleScroll st
  | TabClick => clear_selection st
  | BubbleClose => clear_selection st
  | DeepDive has_key => if has_key then clear_selection st else st
  | EditMode b =>
      {| isEditMode := b; selection := selection st;
         ranges_removed := ranges_removed st |}
  end.

Definition app_run (st : AppState) (evs : list app_event) : AppState :=
  fold_left app_step evs st.

(** [useState(null)] *)
Definition app_start (edit : bool) : AppState :=
  {| isEditMode := edit; selection := None; ranges_removed := 0 |}.

(** The word of the bubble, when [!isEditMode && selection] lets it
    render. *)
Definition bubble_word (st : AppState) : option string :=
  if isEditMode st then None
  else
    match selection st with
    | Some (text, _, _) => Some text
    | None => None
    end.

End SelectionState.

End App.

(** ** Events on the fragments of a rendered page *)

Module Editing.

Import Viewer.

Inductive span_event : Type :=
| Click (idx : nat)
| Input (idx : nat) (text : string)
| Blur (idx : nat)
| KeyDown (idx : nat) (key : string).

Definition span_step (props : Props) (s : Session) (ev : span_event)
  : Session :=
  match ev with
  | Click idx => click_at props idx s
  | Input idx text => input_at idx text s
  | Blur idx => blur_at props idx s
  | KeyDown idx key => keydown_at props idx key s
  end.

Definition span_run (props : Props) (s : Session) (evs : list span_event)
  : Session :=
  fold_left (span_step props) evs s.

(** No fragment carries listeners or can be edited. *)
Definition inert (fs : list Fragment) : Prop :=
  Forall (fun f => has_listeners f = false
                   /\ contentEditable (fragment_span f) = false) fs.

(** A viewer in reading mode. *)
Definition reading_props : Props :=
  {| tabId := "t1"; isEditMode := false; isDarkMode := true;
     mapPDFFontToCSS := fun name => name |}.

End Editing.

(** ** The viewer's container when the viewer is unmounted *)

Module Teardown.

Import Viewer.

(** What the cleanup of an unmounting viewer keeps true: pages are
    appended only while the flag is set. *)
Definition guarded (v : View) : Prop :=
  (containerRef v = true -> active v = true)
  /\ Forall (fun b => appended_while_active b = true) (container v).

Definition keeps {A} (m : StateErr View A) : Prop :=
  forall v, guarded v -> guarded (m v).2.

End Teardown.

(** * Properties *)

Import JsString Dictionary Viewer Examples.

(** ** The string primitives on small inputs *)

Example trim_both_ends : trim "  Running!! " = "Running!!".
Proof. reflexivity. Qed.

Example trim_keeps_inner_space : trim " ice  cream " = "ice  cream".
Proof. reflexivity. Qed.

Example strip_punct_parentheses : strip_punct "(to be, or not?)" = "to be or not".
Proof. reflexivity. Qed.

Example toLowerCase_ascii : toLowerCase "Ice-Cream 42" = "ice-cream 42".
Proof. reflexivity. Qed.

Example split_leading : split_ws " a b" = [""; "a"; "b"].
Proof. reflexivity. Qed.

Example split_trailing : split_ws "a  b " = ["a"; "b"; ""].
Proof. reflexivity. Qed.

Example split_empty : split_ws "" = [""].
Proof. reflexivity. Qed.

Example encode_space : encodeURIComponent "ice cream" = "ice%20cream".
Proof. reflexivity. Qed.

Example ToString_array :
  Json.ToString (Json.JArr [Json.JNum true "1"; Json.JNull; Json.JStr "a"])
  = Normal "1,,a".
Proof. reflexivity. Qed.

Example ToString_object : Json.ToString (Json.JObj []) = Normal "[object Object]".
Proof. reflexivity. Qed.

(** A leading parenthesis leaves a leading space after the punctuation is
    stripped: three words, four pieces, and the phrase is rejected. *)
Example three_words_four_pieces :
  count_words (cleanTerm_of "(a) b c") = 3
  /\ split_ws (cleanTerm_of "( a b c") = [""; "a"; "b"; "c"]
  /\ rejected (cleanTerm_of "( a b c") = true.
Proof. by vm_compute. Qed.

(** ** Splitting and the guard of the remote lookup *)

(** [split] always returns at least one piece. *)
Lemma split_ws_from_nonempty b s : split_ws_from b s <> [].
Proof.
  revert b; induction s as [|c s IH]; intros b; simpl; [done|].
  destruct (is_js_space c).
  - destruct b; [apply IH | done].
  - specialize (IH false). destruct (split_ws_from false s); done.
Qed.

Lemma words_pieces_from s :
  S (count_words_from true s) <= length (split_ws_from false s)
  /\ count_words_from false s <= length (split_ws_from true s).
Proof.
  induction s as [|c s [IHa IHb]]; simpl; [lia|].
  destruct (is_js_space c); simpl.
  - lia.
  - pose proof (split_ws_from_nonempty false s).
    destruct (split_ws_from false s); simpl in *; [done | lia].
Qed.

(** A phrase has at least as many pieces as words: a phrase of more than
    three words is rejected. *)
Lemma words_le_pieces s : count_words s <= length (split_ws s).
Proof.
  unfold count_words, split_ws. destruct s as [|c s]; simpl; [lia|].
  destruct (words_pieces_from s) as [Ha Hb].
  destruct (is_js_space c); simpl; [lia|].
  pose proof (split_ws_from_nonempty false s).
  destruct (split_ws_from false s); simpl in *; [done | lia].
Qed.

Lemma rejected_iff c :
  rejected c = true <-> String.length c < 2 \/ 3 < length (split_ws c).
Proof.
  unfold rejected. rewrite orb_true_iff, !Nat.ltb_lt. done.
Qed.

Lemma world_eta w :
  {| events := events w; definitions := definitions w;
     source := source w; loading := loading w |} = w.
Proof. by destruct w. Qed.

(** [fetchOnlineDefinition] never throws, sends at most one request and
    leaves the component state alone. *)
Lemma fetchOnlineDefinition_run rt term w :
  fetchOnlineDefinition rt term w
  = (Normal (remote_answer rt term),
     {| events := events w ++ remote_events term; definitions := definitions w;
        source := source w; loading := loading w |}).
Proof.
  unfold remote_answer, remote_events, fetchOnlineDefinition, try_catch.
  destruct (rejected (cleanTerm_of term)); simpl.
  - by rewrite app_nil_r, world_eta.
  - unfold lift. destruct (fetch rt _) as [resp|e]; simpl; [|done].
    destruct (ok resp); simpl; [|done].
    destruct (json resp) as [data|e]; simpl; [|done].
    destruct (match data with Json.JArr entries => forEach entries entry_cb [] | _ => Normal [] end); done.
Qed.

(** ** The lookup chain, run to completion *)

(** The local stage: [foundLocal] is set exactly when the local source
    answered with a non-empty result set. *)
Lemma local_stage_run rt word w :
  local_stage rt word w
  = match local_answer rt word with
    | [] =>
        (Normal false,
         {| events := events w ++ local_events rt word;
            definitions := definitions w; source := source w;
            loading := loading w |})
    | results =>
        (Normal true,
         {| events := events w ++ local_events rt word;
            definitions := results; source := Some local;
            loading := loading w |})
    end.
Proof.
  unfold local_stage, local_answer, local_source, local_events, try_catch.
  destruct (isTauri rt); simpl; [|by rewrite app_nil_r, world_eta].
  destruct (import_core rt) as [| |search]; simpl;
    [done | by rewrite app_nil_r, world_eta |].
  unfold lift.
  destruct (search (trim word)) as [[[|r rs]|]|e]; simpl; try done.
  by rewrite <- app_assoc.
Qed.

(** The whole effect, as a function of the two answers. *)
Lemma fetchDefinition_run rt word w :
  fetchDefinition rt word w = (Normal tt, resolved rt word w).
Proof.
  unfold fetchDefinition, resolved. simpl.
  rewrite local_stage_run.
  destruct (local_answer rt word) as [|r rs]; simpl; [|done].
  unfold online_stage, try_catch. simpl.
  rewrite fetchOnlineDefinition_run. simpl.
  destruct (remote_answer rt word); simpl; by rewrite <- app_assoc.
Qed.

(** The local stage sends nothing to the remote source. *)
Lemma local_events_no_fetch rt word :
  filter (fun ev => is_fetch ev = true) (local_events rt word) = [].
Proof.
  unfold local_events.
  destruct (isTauri rt); [|done].
  destruct (import_core rt) as [| |search]; [done..|].
  by destruct (search (trim word)).
Qed.

Lemma remote_calls_resolved rt word w :
  remote_calls (resolved rt word w)
  = remote_calls w
    + match local_answer rt word with
      | [] => if rejected (cleanTerm_of word) then 0 else 1
      | _ => 0
      end.
Proof.
  unfold remote_calls, resolved, remote_events.
  destruct (local_answer rt word); simpl;
    rewrite ?filter_app, ?local_events_no_fetch, ?length_app; simpl.
  - by destruct (rejected (cleanTerm_of word)).
  - lia.
Qed.

Lemma local_events_head rt word search_dictionary :
  local_source rt = Some search_dictionary ->
  exists later,
    local_events rt word = EvInvoke "search_dictionary" (trim word) :: later.
Proof.
  unfold local_source, local_events.
  destruct (isTauri rt); [|done].
  destruct (import_core rt); [done..|]. intros _. eauto.
Qed.

Lemma fetchDefinition_world rt word w :
  (fetchDefinition rt word w).2 = resolved rt word w.
Proof. by rewrite fetchDefinition_run. Qed.


(** ** What the remote parser keeps *)

(** One definition pushes nothing or one line with the prefix of its
    meaning. *)
Lemma definition_cb_lines meaning def defs defs' :
  definition_cb meaning def defs = Normal defs' ->
  defs' = defs \/
  exists pos text, partOfSpeech_text meaning = Normal pos
                   /\ defs' = defs ++ ["(" +:+ pos +:+ ") " +:+ text].
Proof.
  unfold definition_cb, partOfSpeech_text. simpl.
  destruct (Json.get def "definition") as [d|e]; simpl; [|done].
  destruct (Json.truthy d); simpl; [|intros [= <-]; by left].
  destruct (partOfSpeech_or_noun meaning) as [pos|e]; simpl; [|done].
  destruct (Json.ToString_opt pos) as [pos_text|e]; simpl; [|done].
  destruct (Json.ToString_opt d) as [d_text|e]; simpl; [|done].
  intros [= <-]. right. by exists pos_text, d_text.
Qed.

Lemma forEach_definition_cb meaning l defs defs' :
  forEach l (definition_cb meaning) defs = Normal defs' ->
  exists lines, defs' = defs ++ lines /\ length lines <= length l /\
    Forall (fun line => exists pos text,
              partOfSpeech_text meaning = Normal pos
              /\ line = "(" +:+ pos +:+ ") " +:+ text) lines.
Proof.
  revert defs. induction l as [|d l IH]; intros defs; simpl.
  - intros [= <-]. exists []. by rewrite app_nil_r.
  - destruct (definition_cb meaning d defs) as [defs1|e] eqn:Hd; [|done].
    intros (lines & -> & Hlen & Hall)%IH.
    apply definition_cb_lines in Hd as [->|(pos & text & Hpos & ->)].
    + exists lines. split_and!; [done | lia | done].
    + exists (("(" +:+ pos +:+ ") " +:+ text) :: lines).
      rewrite <- app_assoc. split_and!; [done | simpl; lia |].
      constructor; [by exists pos, text | done].
Qed.

Lemma meaning_cb_lines meaning defs defs' :
  meaning_cb meaning defs = Normal defs' ->
  exists lines, defs' = defs ++ lines /\ meaning_lines meaning lines.
Proof.
  unfold meaning_cb, meaning_lines. simpl.
  destruct (Json.get meaning "definitions") as [[ds|]|e]; simpl; [| |done].
  - destruct ds as [| | | |l|]; try done.
    + intros [= <-]. exists []. rewrite app_nil_r. split_and!; [done | simpl; lia | done].
    + intros (lines & -> & Hlen & Hall)%forEach_definition_cb.
      exists lines. split_and!; [done | | done].
      rewrite length_take in Hlen. lia.
  - intros [= <-]. exists []. rewrite app_nil_r. split_and!; [done | simpl; lia | done].
Qed.

Lemma forEach_meaning_cb ms defs defs' :
  forEach ms meaning_cb defs = Normal defs' ->
  exists groups, defs' = defs ++ concat groups
                 /\ Forall2 meaning_lines ms groups.
Proof.
  revert defs. induction ms as [|m ms IH]; intros defs; simpl.
  - intros [= <-]. exists []. by rewrite app_nil_r.
  - destruct (meaning_cb m defs) as [defs1|e] eqn:Hm; [|done].
    intros (groups & -> & Hall)%IH.
    apply meaning_cb_lines in Hm as (lines & -> & Hlines).
    exists (lines :: groups). simpl. rewrite <- app_assoc.
    split; [done | by constructor].
Qed.

Lemma entry_cb_lines entry defs defs' :
  entry_cb entry defs = Normal defs' ->
  exists groups, defs' = defs ++ concat groups
                 /\ Forall2 meaning_lines (entry_meanings entry) groups.
Proof.
  unfold entry_cb, entry_meanings. simpl.
  destruct (Json.get entry "meanings") as [[ms|]|e]; simpl; [| |done].
  - destruct ms as [| | | |l|]; try done.
    + intros [= <-]. exists []. by rewrite app_nil_r.
    + apply forEach_meaning_cb.
  - intros [= <-]. exists []. by rewrite app_nil_r.
Qed.

Lemma forEach_entry_cb entries defs defs' :
  forEach entries entry_cb defs = Normal defs' ->
  exists groups, defs' = defs ++ concat groups
                 /\ Forall2 meaning_lines (response_meanings entries) groups.
Proof.
  revert defs. induction entries as [|entry entries IH]; intros defs; simpl.
  - intros [= <-]. exists []. by rewrite app_nil_r.
  - destruct (entry_cb entry defs) as [defs1|e] eqn:He; [|done].
    intros (groups2 & -> & Hall2)%IH.
    apply entry_cb_lines in He as (groups1 & -> & Hall1).
    exists (groups1 ++ groups2). rewrite concat_app, <- app_assoc.
    split; [done | by apply Forall2_app].
Qed.

(** A non-empty answer comes from a successful response whose body is an
    array, cut to three lines. *)
Lemma remote_answer_cases rt term :
  remote_answer rt term = [] \/
  exists response entries defs,
    rejected (cleanTerm_of term) = false
    /\ fetch rt (api_url (cleanTerm_of term)) = Normal response
    /\ ok response = true
    /\ json response = Normal (Json.JArr entries)
    /\ forEach entries entry_cb [] = Normal defs
    /\ remote_answer rt term = take 3 defs.
Proof.
  unfold remote_answer, fetchOnlineDefinition, try_catch, lift.
  destruct (rejected (cleanTerm_of term)); simpl; [by left|].
  destruct (fetch rt _) as [resp|e]; simpl; [|by left].
  destruct (ok resp) eqn:Hok; simpl; [|by left].
  destruct (json resp) as [data|e] eqn:Hjson; simpl; [|by left].
  destruct data as [| | | |entries|]; simpl; try by left.
  destruct (forEach entries entry_cb []) as [defs|e] eqn:Hdefs; simpl; [|by left].
  right. by exists resp, entries, defs.
Qed.

(** ** The lookup chain: claims *)

(** C4, as amended.  The local source, when the runtime has one, is queried
    first, with the trimmed and otherwise unchanged term.  When it answers
    with a non-empty result set, that set is shown, tagged local, and no
    request goes to the remote source.  When it is unavailable, fails or
    answers with nothing, the remote lookup runs once: it sends exactly one
    request if the cleaned term passes the guard, and none if the guard
    rejects it. *)
Theorem local_first_then_remote rt word w :
  let w' := (fetchDefinition rt word w).2 in
  (forall search_dictionary, local_source rt = Some search_dictionary ->
     exists later,
       events w' = events w ++ EvInvoke "search_dictionary" (trim word) :: later)
  /\ (local_answer rt word <> [] ->
      definitions w' = local_answer rt word /\ source w' = Some local
      /\ remote_calls w' = remote_calls w)
  /\ (local_answer rt word = [] ->
      remote_calls w'
      = remote_calls w + (if rejected (cleanTerm_of word) then 0 else 1)
      /\ exists before,
           events w' = before ++ remote_events word
           /\ definitions w' = remote_answer rt word).
Proof.
  rewrite fetchDefinition_world. cbv zeta. split_and!.
  - intros search [later Hev]%(local_events_head rt word).
    unfold resolved. rewrite Hev.
    destruct (local_answer rt word); simpl; eauto.
  - intros Hne. rewrite remote_calls_resolved. unfold resolved.
    destruct (local_answer rt word); [done|]. simpl. split_and!; [done..|lia].
  - intros Hnil. rewrite remote_calls_resolved. unfold resolved.
    rewrite Hnil. simpl. split; [done|].
    exists (events w ++ local_events rt word). by rewrite <- app_assoc.
Qed.

Lemma local_first_then_remote_witness :
  remote_calls (fetchDefinition browser_runtime "serendipity" initial_world).2
  = 1.
Proof.
  destruct (local_first_then_remote browser_runtime "serendipity" initial_world)
    as (_ & _ & H).
  destruct (H eq_refl) as [-> _]. reflexivity.
Defined.

(** C4 as stated fails: without a local source, the one-letter term [a] is
    rejected by the guard and the remote source is not invoked at all. *)
Lemma short_term_is_never_fetched :
  local_source browser_runtime = None
  /\ remote_calls (fetchDefinition browser_runtime "a" initial_world).2 <> 1.
Proof. split; [reflexivity | vm_compute; lia]. Qed.

(** C5, as amended.  The term is trimmed, stripped of the punctuation class
    and lower-cased, so that [Running!! ] becomes [running].  When the
    cleaned term is shorter than two code units or splits into more than
    three pieces, the remote lookup returns the empty list without touching
    the world, and the whole lookup sends no request; it ends empty unless
    the local source, which is asked before the guard is reached, answered
    with a non-empty result set. *)
Theorem rejected_term_skips_network :
  cleanTerm_of "Running!! " = "running"
  /\ forall rt word w,
       String.length (cleanTerm_of word) < 2
       \/ 3 < length (split_ws (cleanTerm_of word)) ->
       let w' := (fetchDefinition rt word w).2 in
       fetchOnlineDefinition rt word w = (Normal [], w)
       /\ remote_calls w' = remote_calls w
       /\ (local_answer rt word = [] ->
           definitions w' = [] /\ source w' = None).
Proof.
  split; [reflexivity|].
  intros rt word w Hrej%rejected_iff. cbv zeta. rewrite fetchDefinition_world.
  assert (remote_answer rt word = []) as Hanswer.
  { unfold remote_answer, fetchOnlineDefinition, try_catch. by rewrite Hrej. }
  split_and!.
  - rewrite fetchOnlineDefinition_run, Hanswer. unfold remote_events.
    by rewrite Hrej, app_nil_r, world_eta.
  - rewrite remote_calls_resolved, Hrej.
    destruct (local_answer rt word); lia.
  - intros Hnil. unfold resolved. by rewrite Hnil, Hanswer.
Qed.

Lemma rejected_term_skips_network_witness :
  remote_calls
    (fetchDefinition desktop_runtime "to be or not" initial_world).2 = 0.
Proof.
  destruct rejected_term_skips_network as [_ H].
  destruct (H desktop_runtime "to be or not" initial_world)
    as (_ & -> & _); [right; vm_compute; lia | reflexivity].
Defined.

(** C5 as stated fails: the one-letter term [a] is rejected by the guard,
    yet the lookup ends with the definitions of the local source. *)
Lemma short_term_found_locally :
  String.length (cleanTerm_of "a") < 2
  /\ definitions (fetchDefinition desktop_runtime "a" initial_world).2 <> [].
Proof. split; [vm_compute; lia | by vm_compute]. Qed.

(** A local source that fails answers nothing. *)
Lemma local_answer_failing rt word :
  isTauri rt = true ->
  (import_core rt = ImportRejects
   \/ exists search_dictionary e,
        import_core rt = Invoke search_dictionary
        /\ search_dictionary (trim word) = Throw e) ->
  local_answer rt word = [].
Proof.
  intros Htauri Hfails. unfold local_answer, local_source. rewrite Htauri.
  destruct Hfails as [->|(search & e & -> & Hthrow)]; [done|].
  by rewrite Hthrow.
Qed.

(** The remote answer is empty when the request or the reading of the body
    fails, when the status is not ok, and when the parser throws. *)
Lemma remote_answer_failing rt term :
  (exists e, fetch rt (api_url (cleanTerm_of term)) = Throw e)
  \/ (exists response,
        fetch rt (api_url (cleanTerm_of term)) = Normal response
        /\ (ok response = false
            \/ (exists e, json response = Throw e)
            \/ exists entries e,
                 json response = Normal (Json.JArr entries)
                 /\ forEach entries entry_cb [] = Throw e)) ->
  remote_answer rt term = [].
Proof.
  intros Hfails.
  destruct (remote_answer_cases rt term)
    as [->|(resp & entries & defs & _ & Hfetch & Hok & Hjson & Hdefs & _)];
    [done|].
  destruct Hfails as [[e He]|(response & Hresp & Hbad)]; [congruence|].
  assert (response = resp) as -> by congruence.
  destruct Hbad as [?|[[e He]|(entries' & e & Hjson' & Hthrow)]];
    congruence.
Qed.

(** C6.  Neither the remote lookup nor the effect ever completes with an
    exception, whatever the two sources do.

    A failure of the local source (the import rejects, or the command does)
    is an empty result of the local stage: the stage ends normally with
    [foundLocal] false and the shown definitions and tag untouched, the
    remote lookup runs, and the effect ends with the same definitions, tag,
    loading flag and number of requests as with a local source that answers
    with the empty result set.

    A failure of the remote source (the request fails or is not ok, the
    body cannot be read, the parser throws on it) is an empty result of the
    remote lookup, and an empty remote result is never shown as an online
    answer: if the local stage found nothing either, the effect ends with
    the empty list and no tag.

    In every case the effect ends with [loading] cleared and with either a
    non-empty list of definitions and a source tag, or the empty list and
    no tag. *)
Theorem lookup_never_throws rt word w :
  (exists defs w', fetchOnlineDefinition rt word w = (Normal defs, w'))
  /\ (exists w', lookup_effect rt word w = (Normal tt, w'))
  /\ (isTauri rt = true ->
      (import_core rt = ImportRejects
       \/ exists search_dictionary e,
            import_core rt = Invoke search_dictionary
            /\ search_dictionary (trim word) = Throw e) ->
      (exists w1, local_stage rt word w = (Normal false, w1)
                  /\ definitions w1 = definitions w
                  /\ source w1 = source w)
      /\ (exists defs,
            (fetchOnlineDefinition rt word w).1 = Normal defs
            /\ definitions (fetchDefinition rt word w).2 = defs
            /\ source (fetchDefinition rt word w).2
               = match defs with [] => None | _ => Some online end)
      /\ definitions (fetchDefinition rt word w).2
         = definitions (fetchDefinition (with_empty_local rt) word w).2
      /\ source (fetchDefinition rt word w).2
         = source (fetchDefinition (with_empty_local rt) word w).2
      /\ loading (fetchDefinition rt word w).2
         = loading (fetchDefinition (with_empty_local rt) word w).2
      /\ remote_calls (fetchDefinition rt word w).2
         = remote_calls (fetchDefinition (with_empty_local rt) word w).2)
  /\ ((exists e, fetch rt (api_url (cleanTerm_of word)) = Throw e)
      \/ (exists response,
            fetch rt (api_url (cleanTerm_of word)) = Normal response
            /\ (ok response = false
                \/ (exists e, json response = Throw e)
                \/ exists entries e,
                     json response = Normal (Json.JArr entries)
                     /\ forEach entries entry_cb [] = Throw e)) ->
      (fetchOnlineDefinition rt word w).1 = Normal [])
  /\ ((fetchOnlineDefinition rt word w).1 = Normal [] ->
      source (fetchDefinition rt word w).2 <> Some online
      /\ ((local_stage rt word w).1 = Normal false ->
          definitions (fetchDefinition rt word w).2 = []
          /\ source (fetchDefinition rt word w).2 = None))
  /\ exists w', fetchDefinition rt word w = (Normal tt, w')
       /\ loading w' = false
       /\ (definitions w' <> [] /\ is_Some (source w')
           \/ definitions w' = [] /\ source w' = None).
Proof.
  split_and!.
  - rewrite fetchOnlineDefinition_run. eauto.
  - unfold lookup_effect. destruct (is_empty word); [by eexists|].
    rewrite fetchDefinition_run. eauto.
  - intros Htauri Hfails.
    pose proof (local_answer_failing rt word Htauri Hfails) as Hlocal.
    assert (local_answer (with_empty_local rt) word = []) as Hempty by done.
    assert (remote_answer (with_empty_local rt) word = remote_answer rt word)
      as Hremote by done.
    rewrite !fetchDefinition_world, local_stage_run, fetchOnlineDefinition_run.
    rewrite !remote_calls_resolved. unfold resolved.
    rewrite Hlocal, Hempty, Hremote. simpl.
    split_and!; [by eexists | | done..].
    exists (remote_answer rt word). split_and!; [done..|].
    by destruct (remote_answer rt word).
  - intros Hfails. rewrite fetchOnlineDefinition_run. simpl.
    by rewrite remote_answer_failing.
  - rewrite fetchOnlineDefinition_run, local_stage_run, fetchDefinition_world.
    simpl. intros [= Hnone]. unfold resolved. rewrite Hnone.
    destruct (local_answer rt word) as [|r rs]; simpl; by split.
  - rewrite fetchDefinition_run. eexists. split; [done|].
    unfold resolved.
    destruct (local_answer rt word) as [|r rs]; simpl.
    + split; [done|].
      destruct (remote_answer rt word); [by right | left; eauto].
    + split; [done|]. left; eauto.
Qed.

Lemma lookup_never_throws_witness :
  definitions (fetchDefinition broken_desktop_runtime "serendipity"
                 initial_world).2
  = definitions (fetchDefinition (with_empty_local broken_desktop_runtime)
                   "serendipity" initial_world).2
  /\ source (fetchDefinition broken_desktop_runtime "serendipity"
               initial_world).2
     = source (fetchDefinition (with_empty_local broken_desktop_runtime)
                 "serendipity" initial_world).2.
Proof.
  destruct (lookup_never_throws broken_desktop_runtime "serendipity"
              initial_world) as (_ & _ & H & _).
  destruct H as (_ & _ & Hdefs & Hsource & _).
  - reflexivity.
  - right. by exists (fun _ => Throw CommandError), CommandError.
  - by split.
Defined.

(** *** The parser on a response that follows the interface *)

Lemma spec_partOfSpeech_text fields :
  match Json.own_property fields "partOfSpeech" with
  | None | Some (Json.JStr _) => true
  | Some _ => false
  end = true ->
  partOfSpeech_text (Json.JObj fields)
  = Normal (spec_partOfSpeech (Json.JObj fields)).
Proof.
  unfold partOfSpeech_text, partOfSpeech_or_noun, spec_partOfSpeech. simpl.
  destruct (Json.own_property fields "partOfSpeech") as [[| | |[|c s]| |]|];
    done.
Qed.

Lemma definition_cb_spec fields def text defs :
  partOfSpeech_text (Json.JObj fields)
  = Normal (spec_partOfSpeech (Json.JObj fields)) ->
  definition_string def = Some text ->
  definition_cb (Json.JObj fields) def defs
  = Normal (if decide (text <> "")
            then defs ++ ["(" +:+ spec_partOfSpeech (Json.JObj fields)
                          +:+ ") " +:+ text]
            else defs).
Proof.
  unfold partOfSpeech_text. intros Hpos Hdef. unfold definition_cb.
  destruct def as [| | | | |dfields]; try done. simpl in Hdef.
  cbn [Json.get bind completion_sequence].
  destruct (Json.own_property dfields "definition") as [[| | |s| |]|];
    try done.
  injection Hdef as ->. destruct text as [|c text]; [done|].
  cbn [Json.truthy JsString.is_empty negb].
  cbn [bind completion_sequence] in Hpos.
  destruct (partOfSpeech_or_noun (Json.JObj fields)) as [pos|e]; [|done].
  by rewrite Hpos.
Qed.

Lemma forEach_definition_cb_spec fields l defs :
  partOfSpeech_text (Json.JObj fields)
  = Normal (spec_partOfSpeech (Json.JObj fields)) ->
  forallb has_definition l = true ->
  forEach l (definition_cb (Json.JObj fields)) defs
  = Normal (defs
            ++ map (fun text => "(" +:+ spec_partOfSpeech (Json.JObj fields)
                                +:+ ") " +:+ text)
                   (filter (fun text => text <> "")
                           (omap definition_string l))).
Proof.
  intros Hpos. revert defs.
  induction l as [|def l IH]; intros defs Hall; simpl.
  - by rewrite app_nil_r.
  - simpl in Hall. apply andb_prop in Hall as [Hdef Hall].
    unfold has_definition in Hdef.
    destruct (definition_string def) as [text|] eqn:Htext; [|done].
    rewrite (definition_cb_spec _ _ text) by done.
    rewrite filter_cons. destruct (decide (text <> "")); rewrite IH by done;
      [|done].
    simpl. by rewrite <- app_assoc.
Qed.

Lemma meaning_cb_spec meaning defs :
  well_formed_meaning meaning = true ->
  meaning_cb meaning defs = Normal (defs ++ spec_lines meaning).
Proof.
  destruct meaning as [| | | | |fields]; try done.
  unfold well_formed_meaning. intros [Hpos Hds]%andb_prop.
  apply spec_partOfSpeech_text in Hpos.
  unfold meaning_cb, spec_lines, spec_texts, meaning_definitions. simpl.
  destruct (Json.own_property fields "definitions") as [[| | | |ds|]|];
    try done.
  by apply forEach_definition_cb_spec.
Qed.

Lemma forEach_meaning_cb_spec ms defs :
  forallb well_formed_meaning ms = true ->
  forEach ms meaning_cb defs = Normal (defs ++ flat_map spec_lines ms).
Proof.
  revert defs. induction ms as [|m ms IH]; intros defs Hall; simpl.
  - by rewrite app_nil_r.
  - simpl in Hall. apply andb_prop in Hall as [Hm Hall].
    rewrite meaning_cb_spec, IH by done. by rewrite <- app_assoc.
Qed.

Lemma entry_cb_spec entry defs :
  well_formed_entry entry = true ->
  entry_cb entry defs
  = Normal (defs ++ flat_map spec_lines (entry_meanings entry)).
Proof.
  destruct entry as [| | | | |fields]; try done.
  unfold well_formed_entry, entry_cb, entry_meanings. simpl.
  destruct (Json.own_property fields "meanings") as [[| | | |ms|]|];
    try done.
  apply forEach_meaning_cb_spec.
Qed.

Lemma forEach_entry_cb_spec entries defs :
  forallb well_formed_entry entries = true ->
  forEach entries entry_cb defs
  = Normal (defs ++ flat_map spec_lines (response_meanings entries)).
Proof.
  revert defs. induction entries as [|entry entries IH]; intros defs Hall;
    simpl.
  - by rewrite app_nil_r.
  - simpl in Hall. apply andb_prop in Hall as [Hentry Hall].
    rewrite entry_cb_spec, IH by done.
    unfold response_meanings. simpl.
    by rewrite flat_map_app, <- app_assoc.
Qed.

(** For a response that follows the interface, the remote lookup returns
    the first three of the expected lines. *)
Lemma remote_answer_well_formed rt term response entries :
  rejected (cleanTerm_of term) = false ->
  fetch rt (api_url (cleanTerm_of term)) = Normal response ->
  ok response = true ->
  json response = Normal (Json.JArr entries) ->
  forallb well_formed_entry entries = true ->
  remote_answer rt term
  = take 3 (flat_map spec_lines (response_meanings entries)).
Proof.
  intros Hguard Hfetch Hok Hjson Hall.
  unfold remote_answer, fetchOnlineDefinition, try_catch, lift.
  rewrite Hguard. simpl. rewrite Hfetch. simpl. rewrite Hok. simpl.
  rewrite Hjson. simpl. by rewrite forEach_entry_cb_spec.
Qed.

Lemma length_omap_le {A B} (f : A -> option B) (l : list A) :
  length (omap f l) <= length l.
Proof.
  induction l as [|x l IH]; csimpl; [done|]. destruct (f x); simpl; lia.
Qed.

Lemma length_spec_lines meaning : length (spec_lines meaning) <= 2.
Proof.
  unfold spec_lines, spec_texts. rewrite length_map.
  pose proof (length_filter (fun text : string => text <> "")
                (omap definition_string
                      (take 2 (meaning_definitions meaning)))) as Hfilter.
  pose proof (length_omap_le definition_string
                (take 2 (meaning_definitions meaning))) as Homap.
  rewrite length_take in Homap. lia.
Qed.

(** C7.  The remote lookup always returns a list of at most three lines.
    A non-empty list comes from a response whose body is an array of
    entries: it is the first three lines of what the meanings of the
    response contribute, meaning after meaning, where each meaning
    contributes at most two lines and each line is a part of speech in
    parentheses, a space and a text.

    For a response that follows the interface the lines are pinned: the
    result is the first three of the lines expected for its meanings, in
    order, where the lines expected for a meaning are the non-empty texts
    among its first two definitions, each prefixed with the string of the
    meaning's own field [partOfSpeech] in parentheses ([noun] when the
    field is absent or empty).

    When the local stage found nothing, a non-empty remote list is shown
    and tagged online. *)
Theorem remote_result_is_capped rt term w :
  let defs := remote_answer rt term in
  (fetchOnlineDefinition rt term w).1 = Normal defs
  /\ length defs <= 3
  /\ (defs = [] \/
      exists response entries groups,
        fetch rt (api_url (cleanTerm_of term)) = Normal response
        /\ json response = Normal (Json.JArr entries)
        /\ Forall2 meaning_lines (response_meanings entries) groups
        /\ defs = take 3 (concat groups))
  /\ (forall response entries,
        rejected (cleanTerm_of term) = false ->
        fetch rt (api_url (cleanTerm_of term)) = Normal response ->
        ok response = true ->
        json response = Normal (Json.JArr entries) ->
        forallb well_formed_entry entries = true ->
        defs = take 3 (flat_map spec_lines (response_meanings entries))
        /\ Forall (fun meaning => length (spec_lines meaning) <= 2)
                  (response_meanings entries))
  /\ (local_answer rt term = [] -> defs <> [] ->
      definitions (fetchDefinition rt term w).2 = defs
      /\ source (fetchDefinition rt term w).2 = Some online).
Proof.
  cbv zeta. rewrite fetchDefinition_world. split_and!.
  - by rewrite fetchOnlineDefinition_run.
  - destruct (remote_answer_cases rt term)
      as [->|(resp & entries & defs & _ & _ & _ & _ & _ & ->)]; [simpl; lia|].
    rewrite length_take. lia.
  - destruct (remote_answer_cases rt term)
      as [->|(resp & entries & defs & _ & Hfetch & _ & Hjson & Hdefs & ->)];
      [by left|right].
    apply forEach_entry_cb in Hdefs as (groups & -> & Hgroups).
    by exists resp, entries, groups.
  - intros response entries Hguard Hfetch Hok Hjson Hall. split.
    + by eapply remote_answer_well_formed.
    + apply Forall_forall. intros meaning _. apply length_spec_lines.
  - intros Hnil Hne. unfold resolved.
    rewrite Hnil. simpl. by destruct (remote_answer rt term).
Qed.

Lemma remote_result_is_capped_witness :
  remote_answer crowded_runtime "run"
  = ["(verb) to move fast"; "(verb) to flow"; "(adjective) melted"]
  /\ source (fetchDefinition crowded_runtime "run" initial_world).2
     = Some online.
Proof.
  destruct (remote_result_is_capped crowded_runtime "run" initial_world)
    as (_ & _ & _ & Hlines & Htag).
  destruct (Hlines {| ok := true; json := Normal (Json.JArr [crowded_entry]) |}
              [crowded_entry]) as [Hdefs _]; [reflexivity..|].
  split.
  - rewrite Hdefs. reflexivity.
  - apply Htag; [reflexivity|]. rewrite Hdefs. discriminate.
Defined.

(** The scenario of the lookup for [serendipity]: two lines of the first
    meaning, one of the second, the third definition of the first meaning
    and the second of the second one being cut. *)
Example serendipity_scenario :
  remote_answer online_runtime "Serendipity"
  = ["(noun) a happy accident"; "(noun) a knack for finding";
     "(noun) good luck"].
Proof. reflexivity. Qed.

(** ** A meaning without a part of speech *)

Lemma spec_lines_absent fields :
  Json.own_property fields "partOfSpeech" = None ->
  spec_lines (Json.JObj fields)
  = map (fun text => "(noun) " +:+ text) (spec_texts (Json.JObj fields)).
Proof.
  intros Habsent. unfold spec_lines, spec_partOfSpeech. by rewrite Habsent.
Qed.

(** C10, as amended.  In a response that follows the interface, a meaning
    without a [partOfSpeech] field contributes the non-empty texts among its
    first two definitions, each after the prefix [(noun) ]: the lookup
    returns the first three of the lines of the earlier meanings, these
    lines, and the lines of the later meanings.  So the lines of the
    meaning are all in the result when the earlier meanings leave room for
    them within three lines, and none of them is when the earlier meanings
    give three lines or more. *)
Theorem absent_partOfSpeech_reads_noun
    rt term w response entries before fields after :
  rejected (cleanTerm_of term) = false ->
  fetch rt (api_url (cleanTerm_of term)) = Normal response ->
  ok response = true ->
  json response = Normal (Json.JArr entries) ->
  forallb well_formed_entry entries = true ->
  response_meanings entries = before ++ Json.JObj fields :: after ->
  Json.own_property fields "partOfSpeech" = None ->
  let earlier := flat_map spec_lines before in
  let kept := map (fun text => "(noun) " +:+ text)
                  (spec_texts (Json.JObj fields)) in
  (fetchOnlineDefinition rt term w).1
  = Normal (take 3 (earlier ++ kept ++ flat_map spec_lines after))
  /\ (length earlier + length kept <= 3 ->
      exists later,
        (fetchOnlineDefinition rt term w).1
        = Normal (earlier ++ kept ++ later))
  /\ (3 <= length earlier ->
      (fetchOnlineDefinition rt term w).1 = Normal (take 3 earlier)).
Proof.
  intros Hguard Hfetch Hok Hjson Hall Hmeanings Habsent. cbv zeta.
  rewrite fetchOnlineDefinition_run. simpl.
  rewrite (remote_answer_well_formed rt term response entries) by done.
  rewrite Hmeanings, flat_map_app. simpl.
  rewrite spec_lines_absent by done.
  split_and!.
  - done.
  - intros Hroom. eexists. rewrite (app_assoc (flat_map spec_lines before)).
    rewrite take_app_ge by (rewrite length_app; lia).
    by rewrite <- app_assoc.
  - intros Hfull. by rewrite take_app_le by lia.
Qed.

Lemma absent_partOfSpeech_reads_noun_witness :
  (fetchOnlineDefinition online_runtime "serendipity" initial_world).1
  = Normal ["(noun) a happy accident"; "(noun) a knack for finding";
            "(noun) good luck"].
Proof.
  destruct (absent_partOfSpeech_reads_noun online_runtime "serendipity"
              initial_world
              {| ok := true; json := Normal (Json.JArr [serendipity_entry]) |}
              [serendipity_entry]
              (take 1 (response_meanings [serendipity_entry]))
              [("definitions",
                Json.JArr
                  [Json.JObj [("definition", Json.JStr "good luck")];
                   Json.JObj [("definition", Json.JStr "fortune")]])]
              [])
    as [Hlines _]; [reflexivity..|].
  rewrite Hlines. reflexivity.
Defined.

(** C10 as stated fails: a meaning without a part of speech that comes
    after three lines loses its definition. *)
Lemma late_meaning_is_cut :
  exists fields defs,
    In (Json.JObj fields) (response_meanings [crowded_entry])
    /\ Json.own_property fields "partOfSpeech" = None
    /\ spec_texts (Json.JObj fields) = ["a race"]
    /\ (fetchOnlineDefinition crowded_runtime "run" initial_world).1
       = Normal defs
    /\ defs = ["(verb) to move fast"; "(verb) to flow"; "(adjective) melted"]
    /\ ~ In "(noun) a race" defs.
Proof.
  exists [("definitions",
           Json.JArr [Json.JObj [("definition", Json.JStr "a race")]])].
  eexists. split_and!; [| reflexivity | reflexivity | reflexivity
                        | reflexivity |].
  - right. right. by left.
  - by intros [|[|[|[]]]].
Qed.

(** ** The edit store: restoring and committing *)

Lemma is_empty_true s : is_empty s = true <-> s = "".
Proof. by destruct s. Qed.

Lemma is_empty_false s : is_empty s = false <-> s <> "".
Proof. by destruct s. Qed.

Lemma render_spans_lookup props tabs pageNum items spans idx :
  render_spans props tabs pageNum items spans !! idx
  = span_cb props (find_tab tabs (tabId props)) pageNum items idx
      <$> spans !! idx.
Proof. apply list_lookup_imap. Qed.

Lemma span_cb_id props tab pageNum items idx sp :
  fragment_id (span_cb props tab pageNum items idx sp) = spanId pageNum idx.
Proof. unfold span_cb. by destruct (isEditMode props). Qed.

Lemma span_cb_listeners props tab pageNum items idx sp :
  has_listeners (span_cb props tab pageNum items idx sp) = isEditMode props.
Proof. unfold span_cb. by destruct (isEditMode props). Qed.

Lemma apply_font_textContent props item sp :
  textContent (apply_font props item sp) = textContent sp.
Proof.
  unfold apply_font. destruct (item ≫= fontName) as [name|]; [|done].
  by destruct (is_empty name).
Qed.

Lemma apply_font_borderBottom props item sp :
  style (apply_font props item sp) !! "borderBottom"
  = style sp !! "borderBottom".
Proof.
  unfold apply_font. destruct (item ≫= fontName) as [name|]; [|done].
  destruct (is_empty name); [done|]. simpl. by rewrite lookup_insert_ne.
Qed.

(** A restored span shows the persisted text and carries the marker. *)
Lemma span_cb_restores props tab pageNum items idx sp text :
  persisted_edit tab (spanId pageNum idx) = Some text ->
  let f := span_cb props tab pageNum items idx sp in
  textContent (fragment_span f) = text
  /\ style (fragment_span f) !! "borderBottom" = Some dashed_marker.
Proof.
  intros Hedit. unfold span_cb, restore_edit. rewrite Hedit.
  destruct (isEditMode props); simpl;
    rewrite apply_font_textContent, lookup_insert_ne by done;
    rewrite apply_font_borderBottom; simpl;
    by rewrite lookup_insert_eq.
Qed.

(** A span without a persisted edit keeps the text of the document. *)
Lemma span_cb_keeps props tab pageNum items idx sp :
  persisted_edit tab (spanId pageNum idx) = None ->
  textContent (fragment_span (span_cb props tab pageNum items idx sp))
  = textContent sp.
Proof.
  intros Hedit. unfold span_cb, restore_edit. rewrite Hedit.
  destruct (isEditMode props); simpl; by rewrite apply_font_textContent.
Qed.

Lemma find_tab_saveEdit tabs tabId id text tab :
  find_tab tabs tabId = Some tab ->
  find_tab (saveEdit tabs tabId id text) tabId
  = Some {| tab_id := tab_id tab;
            edits := Some (<[id := text]> (default ∅ (edits tab))) |}.
Proof.
  induction tabs as [|t tabs IH]; simpl; [done|].
  destruct (String.eqb (tab_id t) tabId) eqn:Heq; simpl; rewrite Heq.
  - by intros [= ->].
  - done.
Qed.

Lemma persisted_after_saveEdit tabs tabId id text :
  is_Some (find_tab tabs tabId) -> text <> "" ->
  persisted_edit (find_tab (saveEdit tabs tabId id text) tabId) id = Some text.
Proof.
  intros [tab Htab] Htext. rewrite (find_tab_saveEdit _ _ _ _ tab) by done.
  unfold persisted_edit. simpl. rewrite lookup_insert_eq.
  by destruct text.
Qed.

Lemma trim_nonempty text : trim text <> "" -> text <> "".
Proof. by intros Htrim ->. Qed.

Lemma on_blur_commits props id sp tabs :
  trim (textContent sp) <> "" ->
  (on_blur props id sp tabs).2 = saveEdit tabs (tabId props) id (textContent sp).
Proof.
  intros Htrim. unfold on_blur. simpl.
  pose proof (trim_nonempty _ Htrim) as Htext.
  apply is_empty_false in Htrim, Htext. by rewrite Htrim, Htext.
Qed.

Lemma on_blur_reverts props id sp tabs :
  trim (textContent sp) = "" ->
  on_blur props id sp tabs
  = (set_background "transparent"
       (set_style "color" "transparent"
          (set_style "outline" "none" (set_contentEditable false sp))),
     tabs).
Proof.
  intros Htrim. unfold on_blur. simpl.
  apply is_empty_true in Htrim. rewrite Htrim. by rewrite andb_false_r.
Qed.

(** The session after a commit, in edit mode. *)
Lemma commit_text_run props tabs pageNum items spans idx text sp :
  isEditMode props = true ->
  spans !! idx = Some sp ->
  let f := span_cb props (find_tab tabs (tabId props)) pageNum items idx sp in
  let edited := set_textContent text (on_click props (fragment_span f)) in
  let r := on_blur props (spanId pageNum idx) edited tabs in
  commit_text props idx text
    (render_spans props tabs pageNum items spans, tabs)
  = (<[idx := {| fragment_id := spanId pageNum idx; fragment_span := r.1;
                 has_listeners := true |}]>
       (render_spans props tabs pageNum items spans), r.2).
Proof.
  intros Hedit Hsp. cbv zeta.
  assert (idx < length (render_spans props tabs pageNum items spans)) as Hlen.
  { unfold render_spans. rewrite length_imap. by eapply lookup_lt_Some. }
  unfold commit_text, click_at, input_at, blur_at. simpl.
  rewrite render_spans_lookup, Hsp. simpl.
  rewrite span_cb_listeners, Hedit, span_cb_id. simpl.
  rewrite list_lookup_insert_eq by done. simpl.
  rewrite list_lookup_insert_eq by by rewrite length_insert.
  simpl. by rewrite !list_insert_insert_eq.
Qed.

(** ** The edit store: claims *)

(** C8, as amended.  Round trip: in edit mode, for a document that is in
    the store, a fragment of the page and a text that is not made of white
    space only, activating the fragment, replacing its text by this text and
    deactivating it persists the text under the fragment's id; every later
    render of the same page for the same document shows the text on that
    fragment, with the dashed marker, without any further event. *)
Theorem committed_edit_survives_rerender
    props props' tabs pageNum items spans idx text :
  isEditMode props = true ->
  is_Some (find_tab tabs (tabId props)) ->
  idx < length spans ->
  trim text <> "" ->
  tabId props' = tabId props ->
  let s := commit_text props idx text
             (render_spans props tabs pageNum items spans, tabs) in
  persisted_edit (find_tab s.2 (tabId props)) (spanId pageNum idx) = Some text
  /\ exists f,
       render_spans props' s.2 pageNum items spans !! idx = Some f
       /\ fragment_id f = spanId pageNum idx
       /\ textContent (fragment_span f) = text
       /\ style (fragment_span f) !! "borderBottom" = Some dashed_marker.
Proof.
  intros Hedit Htab [sp Hsp]%lookup_lt_is_Some_2 Htrim Hid. cbv zeta.
  rewrite (commit_text_run _ _ _ _ _ _ _ sp) by done. simpl snd.
  rewrite on_blur_commits by done. simpl textContent.
  assert (persisted_edit
            (find_tab (saveEdit tabs (tabId props) (spanId pageNum idx) text)
                      (tabId props))
            (spanId pageNum idx) = Some text) as Hsaved.
  { apply persisted_after_saveEdit; [done | by apply trim_nonempty]. }
  split; [done|].
  rewrite render_spans_lookup, Hsp, Hid. simpl.
  eexists. split; [done|]. rewrite span_cb_id. split; [done|].
  by apply span_cb_restores.
Qed.

Lemma committed_edit_survives_rerender_witness :
  exists f,
    render_spans editing_props
      (commit_text editing_props 0 "Hello world"
         (render_spans editing_props fresh_tabs 1 [] [original_span],
          fresh_tabs)).2 1 [] [original_span] !! 0 = Some f
    /\ textContent (fragment_span f) = "Hello world".
Proof.
  destruct (committed_edit_survives_rerender editing_props editing_props
              fresh_tabs 1 [] [original_span] 0 "Hello world")
    as (_ & f & Hf & _ & Htext & _).
  - reflexivity.
  - by eexists.
  - simpl; lia.
  - by vm_compute.
  - reflexivity.
  - by exists f.
Defined.

(** C8 as stated fails for a non-empty text of white space only: the
    listener does not persist it, and a re-render shows the text of the
    document. *)
Lemma blank_text_is_not_persisted :
  let s := commit_text editing_props 0 " "
             (render_spans editing_props fresh_tabs 1 [] [original_span],
              fresh_tabs) in
  persisted_edit (find_tab s.2 "t1") (spanId 1 0) = None
  /\ (textContent ∘ fragment_span
        <$> render_spans editing_props s.2 1 [] [original_span] !! 0)
     = Some "orig".
Proof. split; reflexivity. Qed.

(** C1, as amended.  In edit mode, for a fragment that has a persisted
    edit, deactivating the fragment with an empty or blank text makes its
    text colour and its background transparent and leaves the edits of the
    store and the dashed marker as they were; a later render of the page
    shows the persisted edit on the fragment again, with the marker. *)
Theorem empty_blur_keeps_persisted_edit
    props props' tabs pageNum items spans idx text old :
  isEditMode props = true ->
  idx < length spans ->
  trim text = "" ->
  persisted_edit (find_tab tabs (tabId props)) (spanId pageNum idx) = Some old ->
  tabId props' = tabId props ->
  let s := commit_text props idx text
             (render_spans props tabs pageNum items spans, tabs) in
  s.2 = tabs
  /\ (exists f, s.1 !! idx = Some f
        /\ style (fragment_span f) !! "borderBottom" = Some dashed_marker
        /\ style (fragment_span f) !! "color" = Some "transparent"
        /\ style (fragment_span f) !! "backgroundColor" = Some "transparent")
  /\ exists f', render_spans props' s.2 pageNum items spans !! idx = Some f'
        /\ textContent (fragment_span f') = old
        /\ style (fragment_span f') !! "borderBottom" = Some dashed_marker.
Proof.
  intros Hedit [sp Hsp]%lookup_lt_is_Some_2 Htrim Hold Hid. cbv zeta.
  rewrite (commit_text_run _ _ _ _ _ _ _ sp) by done.
  rewrite on_blur_reverts by done. simpl fst. simpl snd.
  split_and!; [done| |].
  - eexists. split.
    { apply list_lookup_insert_eq. unfold render_spans.
      rewrite length_imap. by eapply lookup_lt_Some. }
    pose proof (span_cb_restores props _ pageNum items idx sp old Hold)
      as [_ Hmarker]. cbv zeta in Hmarker.
    cbn -[span_cb]. unfold set_background. cbn -[span_cb].
    rewrite lookup_insert_eq.
    rewrite (lookup_insert_ne _ "backgroundColor" "color") by done.
    rewrite lookup_insert_eq.
    rewrite !lookup_insert_ne by done. done.
  - rewrite render_spans_lookup, Hsp, Hid. simpl.
    eexists. split; [done|]. by apply span_cb_restores.
Qed.

Lemma empty_blur_keeps_persisted_edit_witness :
  (commit_text editing_props 0 ""
     (render_spans editing_props edited_tabs 1 [] [original_span],
      edited_tabs)).2 = edited_tabs.
Proof.
  destruct (empty_blur_keeps_persisted_edit editing_props editing_props
              edited_tabs 1 [] [original_span] 0 "" "hello")
    as (Hstore & _); [reflexivity | simpl; lia | reflexivity..| exact Hstore].
Defined.

(** C1 as stated fails: after the fragment was emptied and deactivated, its
    edit is still in the store, its marker is still set, and a re-render
    shows the edit again, not the text of the document. *)
Lemma emptied_fragment_stays_edited :
  let s := commit_text editing_props 0 ""
             (render_spans editing_props edited_tabs 1 [] [original_span],
              edited_tabs) in
  persisted_edit (find_tab s.2 "t1") (spanId 1 0) = Some "hello"
  /\ ((fun f => style (fragment_span f) !! "borderBottom") <$> s.1 !! 0)
     = Some (Some dashed_marker)
  /\ (textContent ∘ fragment_span
        <$> render_spans editing_props s.2 1 [] [original_span] !! 0)
     = Some "hello".
Proof. split_and!; reflexivity. Qed.

(** *** Fragment ids name fragments

    The decimal text of a number has digits only, so the dash after the
    page number ends it: two ids are equal only for the same page and the
    same position. *)

Lemma to_uint_nonnil n : N.to_uint n <> Nil.
Proof.
  destruct n as [|p]; [done|]. apply DecimalPos.Unsigned.to_uint_nonnil.
Qed.

Lemma number_text_inj n n' : number_text n = number_text n' -> n = n'.
Proof.
  unfold number_text. intros Heq.
  apply DecimalN.Unsigned.to_uint_inj.
  pose proof (NilZero.usu (N.to_uint n) (to_uint_nonnil n)) as H.
  rewrite Heq, NilZero.usu in H by apply to_uint_nonnil. congruence.
Qed.

Lemma string_of_uint_digits d : all_digits (NilEmpty.string_of_uint d) = true.
Proof. induction d; simpl; done. Qed.

Lemma number_text_digits n : all_digits (number_text n) = true.
Proof.
  unfold number_text, NilZero.string_of_uint.
  destruct (N.to_uint n); try done; apply (string_of_uint_digits (_ _)).
Qed.

Lemma digits_then_dash a a' b b' :
  all_digits a = true -> all_digits a' = true ->
  a +:+ "-s" +:+ b = a' +:+ "-s" +:+ b' -> a = a' /\ b = b'.
Proof.
  revert a'. induction a as [|c a IH]; intros [|c' a'] Ha Ha' Heq;
    cbv [String.append] in Heq; fold String.append in Heq.
  - by injection Heq as ->.
  - injection Heq as <- _. done.
  - injection Heq as -> _. done.
  - injection Heq as -> Heq. simpl in Ha, Ha'.
    apply andb_prop in Ha as [_ Ha], Ha' as [_ Ha'].
    destruct (IH a' Ha Ha' Heq) as [-> ->]. done.
Qed.

Lemma spanId_inj pageNum pageNum' idx idx' :
  spanId pageNum idx = spanId pageNum' idx' -> pageNum = pageNum' /\ idx = idx'.
Proof.
  unfold spanId. intros Heq.
  cbv [String.append] in Heq; fold String.append in Heq.
  injection Heq as Heq.
  apply digits_then_dash in Heq as [Hp Hi]; [|apply number_text_digits..].
  apply number_text_inj in Hp, Hi. split; [done | lia].
Qed.

(** An edit saved for one fragment leaves the persisted edit of every other
    id as it was. *)
Lemma persisted_other_after_saveEdit tabs tabId tabId' id id' text :
  id <> id' ->
  persisted_edit (find_tab (saveEdit tabs tabId id text) tabId') id'
  = persisted_edit (find_tab tabs tabId') id'.
Proof.
  intros Hne. induction tabs as [|t tabs IH]; simpl; [done|].
  destruct (String.eqb (tab_id t) tabId) eqn:Hsave; simpl.
  - destruct (String.eqb (tab_id t) tabId'); [|done].
    unfold persisted_edit. simpl. rewrite lookup_insert_ne by done.
    destruct (edits t); simpl; [done|]. by rewrite lookup_empty.
  - by destruct (String.eqb (tab_id t) tabId').
Qed.

Lemma click_at_ids props idx s :
  (click_at props idx s).2 = s.2
  /\ fragment_id <$> (click_at props idx s).1 = fragment_id <$> s.1.
Proof.
  unfold click_at. destruct (s.1 !! idx) as [f|] eqn:Hf; [|done].
  destruct (has_listeners f); [simpl|done]. split; [done|].
  rewrite list_fmap_insert. simpl. by rewrite list_insert_id by by rewrite list_lookup_fmap, Hf.
Qed.

Lemma input_at_ids idx text s :
  (input_at idx text s).2 = s.2
  /\ fragment_id <$> (input_at idx text s).1 = fragment_id <$> s.1.
Proof.
  unfold input_at. destruct (s.1 !! idx) as [f|] eqn:Hf; [|done].
  destruct (contentEditable (fragment_span f)); [simpl|done]. split; [done|].
  rewrite list_fmap_insert. simpl. by rewrite list_insert_id by by rewrite list_lookup_fmap, Hf.
Qed.

(** The store after a deactivation: unchanged, or one edit saved under the
    id of the fragment. *)
Lemma blur_at_store props idx s :
  (blur_at props idx s).2 = s.2
  \/ exists id text,
       fragment_id <$> s.1 !! idx = Some id
       /\ (blur_at props idx s).2 = saveEdit s.2 (tabId props) id text.
Proof.
  unfold blur_at. destruct (s.1 !! idx) as [f|]; [|by left].
  destruct (has_listeners f); [simpl|by left].
  unfold on_blur. case_match; simpl; [right; eauto | by left].
Qed.

(** Committing a text on one fragment changes what a later render shows on
    no other fragment of the document, on this page or on another. *)
Lemma commit_leaves_other_fragments
    props props' tabs pageNum pageNum' items items' spans spans' idx idx' text :
  (pageNum, idx) <> (pageNum', idx') ->
  let s := commit_text props idx text
             (render_spans props tabs pageNum items spans, tabs) in
  render_spans props' s.2 pageNum' items' spans' !! idx'
  = render_spans props' tabs pageNum' items' spans' !! idx'.
Proof.
  intros Hne. cbv zeta. rewrite !render_spans_lookup.
  destruct (spans' !! idx') as [sp'|]; [simpl|done]. f_equal.
  assert (persisted_edit
            (find_tab (commit_text props idx text
                         (render_spans props tabs pageNum items spans, tabs)).2
                      (tabId props'))
            (spanId pageNum' idx')
          = persisted_edit (find_tab tabs (tabId props')) (spanId pageNum' idx'))
    as Hsame.
  { unfold commit_text.
    set (s0 := (render_spans props tabs pageNum items spans, tabs)).
    destruct (click_at_ids props idx s0) as [Hstore1 Hids1].
    destruct (input_at_ids idx text (click_at props idx s0))
      as [Hstore2 Hids2].
    destruct (blur_at_store props idx (input_at idx text (click_at props idx s0)))
      as [->|(id & text' & Hid & ->)]; rewrite Hstore2, Hstore1; [done|].
    apply persisted_other_after_saveEdit.
    rewrite <- list_lookup_fmap, Hids2, Hids1, list_lookup_fmap in Hid.
    unfold s0 in Hid. simpl in Hid. rewrite render_spans_lookup in Hid.
    destruct (spans !! idx) as [sp|]; [|done]. simpl in Hid.
    rewrite span_cb_id in Hid. injection Hid as <-.
    by intros [-> ->]%spanId_inj. }
  unfold span_cb, restore_edit. by rewrite Hsame.
Qed.

(** C9.  Two renders of the same page with the same text content give
    every fragment the same id, whatever the store, the mode and the theme
    are in each run.  The id of the fragment at position [idx] of page
    [pageNum] is the letter p, the page number in decimal, the two
    characters -s and [idx] in decimal, and nothing else.  The id stands
    for the page and the position and for them only: two fragments of any
    two renders, of the same page or of different ones, have the same id
    only if they are on the same page at the same position. *)
Theorem fragment_ids_are_deterministic
    props1 props2 tabs1 tabs2 pageNum items spans :
  fragment_id <$> render_spans props1 tabs1 pageNum items spans
  = fragment_id <$> render_spans props2 tabs2 pageNum items spans
  /\ fragment_id <$> render_spans props1 tabs1 pageNum items spans
     = imap (fun idx _ => spanId pageNum idx) spans
  /\ (forall idx f,
        render_spans props1 tabs1 pageNum items spans !! idx = Some f ->
        fragment_id f
        = "p" +:+ number_text pageNum
          +:+ "-s" +:+ number_text (N.of_nat idx))
  /\ (forall pageNum' items' spans' idx idx' f f',
        render_spans props1 tabs1 pageNum items spans !! idx = Some f ->
        render_spans props2 tabs2 pageNum' items' spans' !! idx' = Some f' ->
        fragment_id f = fragment_id f' ->
        pageNum = pageNum' /\ idx = idx').
Proof.
  assert (forall props tabs,
    fragment_id <$> render_spans props tabs pageNum items spans
    = imap (fun idx _ => spanId pageNum idx) spans) as Hids.
  { intros props tabs. unfold render_spans. rewrite fmap_imap.
    apply imap_ext. intros idx sp _. apply span_cb_id. }
  assert (forall props tabs page its sps idx f,
    render_spans props tabs page its sps !! idx = Some f ->
    fragment_id f = spanId page idx) as Hid.
  { intros props tabs page its sps idx f Hf.
    rewrite render_spans_lookup in Hf.
    destruct (sps !! idx) as [sp|]; [|done]. injection Hf as <-.
    apply span_cb_id. }
  split_and!.
  - by rewrite !Hids.
  - apply Hids.
  - intros idx f Hf. by rewrite (Hid _ _ _ _ _ _ _ Hf).
  - intros pageNum' items' spans' idx idx' f f' Hf Hf' Heq.
    rewrite (Hid _ _ _ _ _ _ _ Hf), (Hid _ _ _ _ _ _ _ Hf') in Heq.
    by apply spanId_inj.
Qed.

(** ** Loading a document: one page, then the loop *)

Lemma resumed_containerRef sch v :
  unmounts sch = false -> containerRef (resumed sch v) = containerRef v.
Proof.
  intros Hmounted. unfold resumed, cleanup. case_decide; simpl; [|done].
  by rewrite Hmounted.
Qed.

Lemma resumed_container sch v : container (resumed sch v) = container v.
Proof. unfold resumed, cleanup. by case_decide. Qed.

Lemma resumed_console sch v : console (resumed sch v) = console v.
Proof. unfold resumed, cleanup. by case_decide. Qed.

Lemma page_numbers_update pageNum f (boxes : list PageBox) :
  (forall b, page_number (f b) = page_number b) ->
  page_number <$> (map (fun b => if (page_number b =? pageNum)%N
                                 then f b else b) boxes)
  = page_number <$> boxes.
Proof.
  intros Hf. induction boxes as [|b boxes IH]; simpl; [done|].
  f_equal; [|done]. destruct (page_number b =? pageNum)%N; [apply Hf | done].
Qed.

Lemma resumed_mounted sch previous :
  cleanup_at sch <> Some 0 ->
  resumed sch (mounted previous)
  = {| active := true; containerRef := true; container := previous;
       console := []; awaits := 1 |}.
Proof.
  intros Hlater. unfold resumed, mounted. simpl.
  by rewrite decide_False by done.
Qed.

Lemma resumed_active_early sch previous :
  cleanup_at sch = Some 0 -> active (resumed sch (mounted previous)) = false.
Proof.
  intros Hearly. unfold resumed, mounted. simpl.
  by rewrite decide_True by done.
Qed.

(** From here on [resumed] is used through the lemmas above. *)
#[local] Opaque resumed.

Ltac view_facts :=
  repeat first
    [ rewrite resumed_containerRef by done
    | rewrite resumed_container
    | rewrite resumed_console
    | rewrite page_numbers_update by done
    | rewrite app_nil_r
    | rewrite fmap_app
    | progress simpl ].

(** One page, in a viewer that stays mounted: whether [renderPage] rejects,
    which page container it appends and what it logs. *)
Lemma renderPage_run sch props tabs n p v :
  unmounts sch = false -> containerRef v = true ->
  exists v',
    renderPage sch props tabs n p v
    = (if page_fails p then Throw PdfError else Normal tt, v')
    /\ containerRef v' = true
    /\ page_numbers v' = page_numbers v ++ (if page_appends p then [n] else [])
    /\ console v' = console v ++ page_warnings p.
Proof.
  intros Hmounted Href.
  destruct p as [gp cx rd tc tl].
  unfold renderPage, page_warnings, page_fails, page_appends, appendChild,
    update_box, await_, modify, gets, lift, try_catch, log, page_numbers.
  simpl.
  destruct gp; simpl;
    [|eexists; split; [done|]; by view_facts].
  destruct cx; simpl;
    [|eexists; split; [done|]; by view_facts].
  rewrite resumed_containerRef, Href by done. simpl.
  destruct rd; simpl;
    [|eexists; split; [done|]; by view_facts].
  destruct tc as [items|]; simpl;
    [|eexists; split; [done|]; by view_facts].
  destruct tl as [| |spans]; simpl; eexists; (split; [done|]).
  - by view_facts.
  - by view_facts.
  - by view_facts.
Qed.

(** The loop stops at the first page for which [renderPage] rejects. *)
Lemma render_pages_run sch props tabs i ps v :
  unmounts sch = false -> containerRef v = true ->
  exists v',
    render_pages sch props tabs i ps v
    = (if existsb page_fails ps then Throw PdfError else Normal tt, v')
    /\ containerRef v' = true
    /\ page_numbers v' = page_numbers v ++ appended_numbers i (attempted ps)
    /\ console v' = console v ++ flat_map page_warnings (attempted ps).
Proof.
  intros Hmounted. revert i v.
  induction ps as [|p ps IH]; intros i v Href; simpl.
  - exists v. by rewrite !app_nil_r.
  - destruct (renderPage_run sch props tabs i p v Hmounted Href)
      as (v1 & Hrun & Href1 & Hnum1 & Herr1).
    rewrite Hrun. destruct (page_fails p); simpl.
    + exists v1. by rewrite !app_nil_r.
    + destruct (IH (i + 1)%N v1 Href1) as (v2 & Hrun2 & Href2 & Hnum2 & Herr2).
      exists v2. rewrite Hrun2, Hnum2, Hnum1, Herr2, Herr1.
      by rewrite <- !app_assoc.
Qed.

Lemma loadPdf_run sch props tabs ps previous :
  unmounts sch = false -> cleanup_at sch <> Some 0 ->
  exists v',
    loadPdf sch props tabs {| getDocument_ok := true; pages := ps |}
      (mounted previous)
    = (Normal tt, v')
    /\ page_numbers v' = appended_numbers 1 (attempted ps)
    /\ console v' = flat_map page_warnings (attempted ps)
                    ++ if existsb page_fails ps
                       then [LogError "Error loading PDF:"] else [].
Proof.
  intros Hmounted Hlater.
  unfold loadPdf, try_catch, await_, modify, gets, log. simpl.
  rewrite resumed_mounted by done. simpl.
  edestruct (render_pages_run sch props tabs 1 ps) as (v1 & -> & _ & Hnum & Herr);
    [done | | ]; [done|].
  destruct (existsb page_fails ps); simpl.
  - eexists. split; [done|]. split; [done|]. simpl. by rewrite Herr.
  - eexists. split; [done|]. split; [done|]. by rewrite app_nil_r.
Qed.

Lemma attempted_all ps :
  Forall (fun q => page_fails q = false) ps ->
  attempted ps = ps /\ existsb page_fails ps = false.
Proof.
  induction 1 as [|p ps Hp _ [IHa IHe]]; simpl; [done|].
  by rewrite Hp, IHa, IHe.
Qed.

Lemma attempted_until before p after :
  Forall (fun q => page_fails q = false) before ->
  page_fails p = true ->
  attempted (before ++ p :: after) = before ++ [p]
  /\ existsb page_fails (before ++ p :: after) = true.
Proof.
  intros Hbefore Hp.
  induction Hbefore as [|q before Hq _ [IHa IHe]]; simpl.
  - by rewrite Hp.
  - by rewrite Hq, IHa, IHe.
Qed.

Lemma appended_numbers_bound i ps :
  Forall (fun n => (i <= n < i + N.of_nat (length ps))%N)
         (appended_numbers i ps).
Proof.
  revert i. induction ps as [|p ps IH]; intros i; simpl; [done|].
  apply Forall_app. split.
  - destruct (page_appends p); [|done]. repeat constructor; lia.
  - eapply Forall_impl; [apply IH|]. simpl. lia.
Qed.

Lemma page_warnings_failing p : page_fails p = true -> page_warnings p = [].
Proof. intros Hp. unfold page_warnings. by rewrite Hp. Qed.

(** ** Loading a document: claims *)

(** C2, as amended.  In a viewer that stays mounted and whose document has
    loaded, [loadPdf] itself never rejects.  A page for which [renderPage]
    rejects (it cannot be fetched, rasterised, or read for its text) ends
    the loop: the container holds the pages up to this one and no later
    page, and the document-level handler logs one error after the warnings
    of the earlier pages.  When no page rejects, every page that has a
    canvas context is in the container and the console holds only the
    warnings of the pages whose text layer failed: a page without a context
    or with a failing text layer does not stop the pages after it. *)
Theorem failing_page_ends_the_loop
    sch props tabs previous before p after :
  unmounts sch = false -> cleanup_at sch <> Some 0 ->
  Forall (fun q => page_fails q = false) before ->
  let r := loadPdf sch props tabs
             {| getDocument_ok := true; pages := before ++ p :: after |}
             (mounted previous) in
  r.1 = Normal tt
  /\ (page_fails p = true ->
      page_numbers r.2 = appended_numbers 1 (before ++ [p])
      /\ Forall (fun n => (n <= N.of_nat (length before) + 1)%N)
                (page_numbers r.2)
      /\ console r.2 = flat_map page_warnings before
                       ++ [LogError "Error loading PDF:"])
  /\ (page_fails p = false ->
      Forall (fun q => page_fails q = false) after ->
      page_numbers r.2 = appended_numbers 1 (before ++ p :: after)
      /\ console r.2 = flat_map page_warnings (before ++ p :: after)).
Proof.
  intros Hmounted Hlater Hbefore. cbv zeta.
  destruct (loadPdf_run sch props tabs (before ++ p :: after) previous)
    as (v & -> & Hnum & Hlog); [done..|]. simpl.
  split_and!; [done| |].
  - intros Hp.
    destruct (attempted_until before p after Hbefore Hp) as [Ha He].
    rewrite Hnum, Hlog, Ha, He. split_and!; [done| |].
    + eapply Forall_impl; [apply appended_numbers_bound|]. simpl.
      intros n. rewrite length_app. simpl. lia.
    + rewrite flat_map_app. simpl.
      by rewrite page_warnings_failing, !app_nil_r by done.
  - intros Hp Hafter.
    destruct (attempted_all (before ++ p :: after)) as [Ha He].
    { apply Forall_app. split; [done|]. by constructor. }
    by rewrite Hnum, Hlog, Ha, He, app_nil_r.
Qed.

Lemma failing_page_ends_the_loop_witness :
  page_numbers
    (loadPdf no_cleanup editing_props fresh_tabs
       {| getDocument_ok := true;
          pages := [good_page] ++ unreadable_page :: [good_page] |}
       (mounted [])).2
  = [1%N].
Proof.
  destruct (failing_page_ends_the_loop no_cleanup editing_props fresh_tabs []
              [good_page] unreadable_page [good_page])
    as (_ & H & _).
  - reflexivity.
  - done.
  - by repeat constructor.
  - destruct (H eq_refl) as [-> _]. reflexivity.
Defined.

(** C2 as stated fails: of three pages whose second cannot be fetched, only
    the first is rendered; the third, a sibling that would render, is
    not. *)
Lemma unreadable_page_aborts_siblings :
  let v := (loadPdf no_cleanup editing_props fresh_tabs
              {| getDocument_ok := true;
                 pages := [good_page; unreadable_page; good_page] |}
              (mounted [])).2 in
  page_numbers v = [1%N] /\ 3%N ∉ page_numbers v.
Proof.
  assert (page_numbers
            (loadPdf no_cleanup editing_props fresh_tabs
               {| getDocument_ok := true;
                  pages := [good_page; unreadable_page; good_page] |}
               (mounted [])).2 = [1%N]) as Hpages by by vm_compute.
  cbv zeta. rewrite Hpages. split; [done|].
  by intros [=]%list_elem_of_singleton.
Qed.

(** C3, evaluated where the code departs from it.  A document of two
    pages; the cleanup runs while the first page is rasterised and the viewer
    stays mounted.  The flag is cleared, and the second page is appended all
    the same: the flag is read once, before the loop, and not before each
    page. *)
Theorem cleanup_during_render_appends_stale_page :
  let v := (loadPdf toggle_during_first_render editing_props fresh_tabs
              {| getDocument_ok := true; pages := [good_page; good_page] |}
              (mounted [])).2 in
  active v = false /\ page_numbers v = [1%N; 2%N] /\ stale_pages v = [2%N].
Proof. by vm_compute. Qed.

(** Once the loop has started, the flag is not read again: the pages that
    end up in the container do not depend on when the cleanup runs. *)
Lemma cleanup_after_load_is_ignored sch props tabs ps previous :
  unmounts sch = false -> cleanup_at sch <> Some 0 ->
  page_numbers
    (loadPdf sch props tabs {| getDocument_ok := true; pages := ps |}
       (mounted previous)).2
  = page_numbers
      (loadPdf no_cleanup props tabs {| getDocument_ok := true; pages := ps |}
         (mounted previous)).2.
Proof.
  intros Hmounted Hlater.
  destruct (loadPdf_run sch props tabs ps previous) as (v & -> & Hv & _);
    [done..|].
  destruct (loadPdf_run no_cleanup props tabs ps previous)
    as (v' & -> & Hv' & _); [done..|].
  simpl. by rewrite Hv, Hv'.
Qed.

(** The one place where the flag is read: a cleanup during the document
    load leaves the container as it was. *)
Lemma cleanup_during_load_renders_nothing sch props tabs pdf previous :
  cleanup_at sch = Some 0 ->
  container (loadPdf sch props tabs pdf (mounted previous)).2 = previous.
Proof.
  intros Hearly.
  unfold loadPdf, try_catch, await_, modify, gets, lift, log. simpl.
  destruct (getDocument_ok pdf); simpl.
  - rewrite resumed_active_early by done. simpl. apply resumed_container.
  - apply resumed_container.
Qed.

(** * Further properties *)

Import Selection.

(** ** The cleaning of a selected text *)

Lemma split_pieces_flag s :
  filter (fun piece => piece <> "") (split_ws_from true s)
  = filter (fun piece => piece <> "") (split_ws_from false s).
Proof.
  destruct s as [|c s]; simpl; [done|].
  destruct (is_js_space c); [|done]. by rewrite filter_cons_False by naive_solver.
Qed.

Lemma words_space c s : is_js_space c = true -> words (String c s) = words s.
Proof.
  intros Hc. unfold words, split_ws. simpl. rewrite Hc.
  rewrite filter_cons_False by naive_solver. apply split_pieces_flag.
Qed.

Lemma words_letter c s :
  is_js_space c = false ->
  unwords (words (String c s)) = String c (after_piece (split_ws_from false s)).
Proof.
  intros Hc. unfold words, split_ws. simpl. rewrite Hc.
  pose proof (split_ws_from_nonempty false s) as Hne.
  destruct (split_ws_from false s) as [|p rest]; [done|]. simpl.
  by destruct (filter (fun piece => piece <> "") rest).
Qed.

Lemma words_nil_trimEnd s : words s = [] <-> trimEnd s = "".
Proof.
  induction s as [|c s IH]; [done|].
  destruct (is_js_space c) eqn:Hc.
  - rewrite words_space by done. simpl. rewrite Hc. simpl.
    rewrite IH. by destruct (trimEnd s).
  - simpl. rewrite Hc. simpl. split; [|done].
    unfold words, split_ws. simpl. rewrite Hc.
    pose proof (split_ws_from_nonempty false s) as Hne.
    destruct (split_ws_from false s); [done|].
    by rewrite filter_cons_True by done.
Qed.

Lemma collapse_trimEnd s :
  collapse_ws_from false (trimEnd s) = after_piece (split_ws_from false s)
  /\ collapse_ws_from true (trimEnd s) = unwords (words s).
Proof.
  induction s as [|c s [IHfalse IHtrue]]; [done|].
  destruct (is_js_space c) eqn:Hc.
  - rewrite words_space by done.
    cbn [trimEnd split_ws_from]. rewrite Hc. unfold after_piece.
    rewrite split_pieces_flag. fold (split_ws s). fold (words s).
    destruct (is_empty (trimEnd s)) eqn:Ht; cbn [andb].
    + apply is_empty_true, words_nil_trimEnd in Ht. by rewrite Ht.
    + cbn [collapse_ws_from]. rewrite Hc, IHtrue.
      destruct (words s) as [|w ws] eqn:Hw; [|done].
      apply words_nil_trimEnd in Hw. by rewrite Hw in Ht.
  - rewrite words_letter by done.
    cbn [trimEnd split_ws_from]. rewrite Hc.
    cbn [andb collapse_ws_from]. rewrite Hc, IHfalse. split; [|done].
    pose proof (split_ws_from_nonempty false s) as Hne.
    destruct (split_ws_from false s) as [|p rest]; [done|].
    unfold after_piece.
    by destruct (filter (fun piece => piece <> "") rest).
Qed.

Lemma collapse_trim s : collapse_ws (trim s) = unwords (words s).
Proof.
  unfold collapse_ws, trim.
  induction s as [|c s IH]; [done|].
  destruct (is_js_space c) eqn:Hc.
  - rewrite words_space by done. simpl. by rewrite Hc.
  - rewrite words_letter by done. cbn [trimStart trimEnd]. rewrite Hc.
    cbn [trimEnd andb collapse_ws_from]. rewrite Hc.
    cbn [andb collapse_ws_from]. rewrite Hc.
    f_equal. apply collapse_trimEnd.
Qed.

Lemma is_crlf_space c : is_crlf c = true -> is_js_space c = true.
Proof.
  unfold is_crlf, is_js_space.
  intros [H|H]%orb_prop; apply N.eqb_eq in H; by rewrite H.
Qed.

Lemma space_is_space : is_js_space " " = true.
Proof. reflexivity. Qed.

Lemma space_not_crlf : is_crlf " " = false.
Proof. reflexivity. Qed.

(** After the first replacement no CR or LF is left for the second. *)
Lemma collapse_crlf_collapse_ws b b' s :
  collapse_crlf_from b' (collapse_ws_from b s) = collapse_ws_from b s.
Proof.
  revert b b'. induction s as [|c s IH]; intros b b'; [done|].
  cbn [collapse_ws_from]. destruct (is_js_space c) eqn:Hc.
  - destruct b; [apply IH|].
    cbn [collapse_crlf_from]. by rewrite space_not_crlf, IH.
  - cbn [collapse_crlf_from].
    destruct (is_crlf c) eqn:Hcrlf.
    { apply is_crlf_space in Hcrlf. congruence. }
    by rewrite IH.
Qed.

Lemma collapse_ws_idempotent b s :
  collapse_ws_from b (collapse_ws_from b s) = collapse_ws_from b s.
Proof.
  revert b. induction s as [|c s IH]; intros b; [done|].
  cbn [collapse_ws_from]. destruct (is_js_space c) eqn:Hc.
  - destruct b; [apply IH|].
    cbn [collapse_ws_from]. by rewrite space_is_space, IH.
  - cbn [collapse_ws_from]. by rewrite Hc, IH.
Qed.

Lemma words_not_empty s : Forall (fun w => w <> "") (words s).
Proof. apply Forall_forall. by intros w [? _]%list_elem_of_filter. Qed.

Lemma unwords_not_empty ws :
  ws <> [] -> Forall (fun w => w <> "") ws -> unwords ws <> "".
Proof.
  destruct ws as [|[|c w] ws]; [done| |].
  - by intros _ [? _]%Forall_cons.
  - intros _ _. by destruct ws.
Qed.

Lemma trimEnd_collapse b s :
  trimEnd (collapse_ws_from b (trimEnd s)) = collapse_ws_from b (trimEnd s).
Proof.
  revert b. induction s as [|c s IH]; intros b; [done|].
  cbn [trimEnd]. destruct (is_js_space c) eqn:Hc; cbn [andb].
  - destruct (is_empty (trimEnd s)) eqn:Ht; [done|].
    cbn [collapse_ws_from]. rewrite Hc. destruct b; [apply IH|].
    cbn [trimEnd]. rewrite IH, space_is_space.
    assert (collapse_ws_from true (trimEnd s) <> "") as Hne.
    { rewrite (proj2 (collapse_trimEnd s)).
      apply unwords_not_empty; [|apply words_not_empty].
      rewrite words_nil_trimEnd. by apply is_empty_false. }
    apply is_empty_false in Hne. by rewrite Hne.
  - cbn [collapse_ws_from]. rewrite Hc. cbn [trimEnd]. by rewrite Hc, IH.
Qed.

Lemma trimStart_cases s :
  trimStart s = ""
  \/ exists c r, trimStart s = String c r /\ is_js_space c = false.
Proof.
  induction s as [|c s IH]; [by left|]. simpl.
  destruct (is_js_space c) eqn:Hc; [done|]. right. eauto.
Qed.

Lemma trim_collapse_trim s : trim (collapse_ws (trim s)) = collapse_ws (trim s).
Proof.
  unfold trim, collapse_ws.
  destruct (trimStart_cases s) as [->|(c & r & -> & Hc)]; [done|].
  assert (trimStart (collapse_ws_from false (trimEnd (String c r)))
          = collapse_ws_from false (trimEnd (String c r))) as ->.
  { cbn [trimEnd]. rewrite Hc. cbn [andb collapse_ws_from]. rewrite Hc.
    cbn [trimStart]. by rewrite Hc. }
  apply trimEnd_collapse.
Qed.

(** The last two steps of the cleaning never change anything. *)
Lemma cleanedText_collapse_trim text :
  cleanedText text = collapse_ws (trim text).
Proof.
  unfold cleanedText, collapse_crlf, collapse_ws.
  rewrite collapse_crlf_collapse_ws. apply trim_collapse_trim.
Qed.

Lemma space_free_cons c s :
  space_free (String c s) <-> is_js_space c = false /\ space_free s.
Proof.
  unfold space_free. simpl. split.
  - intros H. split; [by apply H; left | intros d Hd; apply H; by right].
  - intros [Hc Hs] d [<-|Hd]; [done | by apply Hs].
Qed.

Lemma split_pieces_space_free b s : Forall space_free (split_ws_from b s).
Proof.
  assert (space_free "") as Hempty by by intros c [].
  revert b. induction s as [|c s IH]; intros b; simpl.
  - by constructor.
  - destruct (is_js_space c) eqn:Hc.
    + destruct b; [apply IH|]. constructor; [done | apply IH].
    + specialize (IH false).
      destruct (split_ws_from false s) as [|p rest].
      * constructor; [|done]. apply space_free_cons. by split.
      * apply Forall_cons in IH as [Hp Hrest].
        constructor; [|done]. apply space_free_cons. by split.
Qed.

Lemma words_space_free s : Forall space_free (words s).
Proof.
  apply Forall_forall. intros w [_ Hw]%list_elem_of_filter.
  pose proof (split_pieces_space_free false s) as Hall.
  rewrite Forall_forall in Hall. by apply Hall.
Qed.

Lemma split_word_then_space w rest :
  space_free w ->
  split_ws_from false (w +:+ String " " rest) = w :: split_ws_from true rest.
Proof.
  induction w as [|c w IH]; intros Hw.
  - change ("" +:+ String " " rest) with (String " " rest).
    cbn [split_ws_from]. by rewrite space_is_space.
  - apply space_free_cons in Hw as [Hc Hw].
    change (String c w +:+ String " " rest)
      with (String c (w +:+ String " " rest)).
    cbn [split_ws_from]. by rewrite Hc, IH.
Qed.

Lemma split_one_word w : space_free w -> split_ws_from false w = [w].
Proof.
  induction w as [|c w IH]; intros Hw; [done|].
  apply space_free_cons in Hw as [Hc Hw].
  cbn [split_ws_from]. by rewrite Hc, IH.
Qed.

Lemma words_unwords ws :
  Forall (fun w => w <> "") ws -> Forall space_free ws ->
  words (unwords ws) = ws.
Proof.
  induction ws as [|w ws IH]; intros Hne Hfree; [done|].
  apply Forall_cons in Hne as [Hw Hne], Hfree as [Hfw Hfree].
  destruct ws as [|w' ws].
  - unfold words, split_ws. cbn [unwords]. rewrite split_one_word by done.
    by rewrite filter_cons_True, filter_nil by done.
  - change (unwords (w :: w' :: ws))
      with (w +:+ String " " (unwords (w' :: ws))).
    unfold words, split_ws. rewrite split_word_then_space by done.
    rewrite filter_cons_True by done. f_equal.
    rewrite split_pieces_flag. by apply IH.
Qed.

Lemma cleanedText_collapse_trim_words text :
  cleanedText text = unwords (words text).
Proof. by rewrite cleanedText_collapse_trim, collapse_trim. Qed.

(** ** The cleaning of a selected text: results *)

(** X1.  The cleaned text is the words of the selected text, in order,
    with one space between two neighbours: no white space is left at either
    end, every run of white space inside (tabs, line breaks, no-break
    spaces) has become one space, and no word is changed. *)
Theorem cleanedText_is_words_joined text :
  cleanedText text = unwords (words text)
  /\ words (cleanedText text) = words text.
Proof.
  rewrite cleanedText_collapse_trim_words. split; [done|].
  apply words_unwords; [apply words_not_empty | apply words_space_free].
Qed.

(** X2.  Of the four steps of the cleaning only the first two do anything:
    after the trim and the replacement of white-space runs, the replacement
    of CR/LF runs finds nothing to replace and the second trim nothing to
    cut, for every text.  Cleaning a cleaned text changes nothing. *)
Theorem cleanedText_later_steps_are_idle text :
  collapse_crlf (collapse_ws (trim text)) = collapse_ws (trim text)
  /\ cleanedText text = collapse_ws (trim text)
  /\ cleanedText (cleanedText text) = cleanedText text.
Proof.
  split_and!.
  - apply collapse_crlf_collapse_ws.
  - apply cleanedText_collapse_trim.
  - rewrite !cleanedText_collapse_trim, trim_collapse_trim.
    apply collapse_ws_idempotent.
Qed.

(** ** The [mouseup] handlers *)

Lemma trimEnd_idempotent s : trimEnd (trimEnd s) = trimEnd s.
Proof.
  induction s as [|c s IH]; [done|]. cbn [trimEnd].
  destruct (is_js_space c && is_empty (trimEnd s)) eqn:Hcut; [done|].
  cbn [trimEnd]. by rewrite IH, Hcut.
Qed.

Lemma trim_idempotent s : trim (trim s) = trim s.
Proof.
  unfold trim.
  destruct (trimStart_cases s) as [->|(c & r & -> & Hc)]; [done|].
  assert (trimStart (trimEnd (String c r)) = trimEnd (String c r)) as ->.
  { cbn [trimEnd]. rewrite Hc. cbn [andb trimStart]. by rewrite Hc. }
  apply trimEnd_idempotent.
Qed.

(** X3.  The handler of the react-pdf viewer never throws and makes at most
    one call.  It reports a selection only outside edit mode, and the text it
    passes is the cleaned text of the selection and has at least two code
    units; it asks to dismiss the bubble only outside edit mode, when the
    prop was given and there is no selection, no range or a collapsed
    one. *)
Theorem reactPdf_mouseup_calls {Num} (plus : Num -> Num -> Num)
    (half : Num -> Num) isEditMode has_onScroll selection :
  exists calls,
    handleMouseUp_reactPdf plus half isEditMode has_onScroll selection
    = Normal calls
    /\ length calls <= 1
    /\ (forall text x y, In (OnSelection text x y) calls ->
          isEditMode = false /\ 2 <= String.length text
          /\ exists sel, selection = Some sel
                         /\ text = unwords (words (toString sel)))
    /\ (In OnScroll calls ->
          isEditMode = false /\ has_onScroll = true
          /\ forall sel, selection = Some sel ->
                         ranges sel = [] \/ isCollapsed sel = true).
Proof.
  unfold handleMouseUp_reactPdf, first_rect.
  destruct isEditMode.
  { exists []. split_and!; [done | simpl; lia | by intros ??? [] | by intros []]. }
  destruct selection as [sel|].
  2:{ destruct has_onScroll; eexists; (split; [done|]); simpl.
      - split_and!; [lia | by intros ??? [|[]] | done].
      - split_and!; [lia | by intros ??? [] | by intros []]. }
  destruct (ranges sel) as [|rect rest] eqn:Hranges; cbn [length Nat.eqb orb].
  { destruct has_onScroll; eexists; (split; [done|]); simpl.
    - split_and!; [lia | by intros ??? [|[]] |].
      intros _. split_and!; [done..|]. intros ? [= <-]. by left.
    - split_and!; [lia | by intros ??? [] | by intros []]. }
  destruct (isCollapsed sel) eqn:Hcollapsed.
  { destruct has_onScroll; eexists; (split; [done|]); simpl.
    - split_and!; [lia | by intros ??? [|[]] |].
      intros _. split_and!; [done..|]. intros ? [= <-]. by right.
    - split_and!; [lia | by intros ??? [] | by intros []]. }
  destruct (2 <=? String.length (cleanedText (toString sel)))%nat eqn:Hlen.
  - eexists. split; [done|]. simpl.
    split_and!; [lia | | by intros [|[]]].
    intros text x y [[= <- _ _]|[]]. split_and!; [done | |].
    + by apply Nat.leb_le.
    + exists sel. split; [done|]. apply cleanedText_collapse_trim_words.
  - exists []. split_and!; [done | simpl; lia | by intros ??? [] | by intros []].
Qed.

(** X4.  The handler of the viewer makes at most one call and none in edit
    mode.  The text it reports is the trimmed text of the selection: it is
    not empty and trimming it again changes nothing.  It throws only when a
    selection with a non-blank text has no range. *)
Theorem mouseup_reports_trimmed_text {Num} (plus : Num -> Num -> Num)
    (half : Num -> Num) isEditMode selection :
  (isEditMode = true ->
   handleMouseUp plus half isEditMode selection = Normal [])
  /\ (forall calls,
        handleMouseUp plus half isEditMode selection = Normal calls ->
        length calls <= 1
        /\ forall text x y, In (OnSelection text x y) calls ->
             isEditMode = false /\ text <> "" /\ trim text = text
             /\ exists sel, selection = Some sel
                            /\ text = trim (toString sel))
  /\ (forall e,
        handleMouseUp plus half isEditMode selection = Throw e ->
        isEditMode = false
        /\ exists sel, selection = Some sel /\ ranges sel = []
                       /\ trim (toString sel) <> "").
Proof.
  unfold handleMouseUp.
  destruct isEditMode.
  { split_and!; [done| |done]. intros ? [= <-]. simpl. split; [lia|].
    by intros ??? []. }
  split; [done|].
  destruct selection as [sel|]; simpl.
  2:{ split; [|done]. intros ? [= <-]. simpl. split; [lia | by intros ??? []]. }
  destruct (trim (toString sel)) as [|c t] eqn:Htrim; simpl.
  { split; [|done]. intros ? [= <-]. simpl. split; [lia | by intros ??? []]. }
  unfold first_rect. destruct (ranges sel) as [|rect rest] eqn:Hranges; simpl.
  - split; [done|]. intros e _. split; [done|]. exists sel.
    by rewrite Htrim.
  - split; [|done]. intros ? [= <-]. simpl. split; [lia|].
    intros text x y [[= <- _ _]|[]]. split_and!; [done..| |].
    + rewrite <- Htrim. apply trim_idempotent.
    + by exists sel.
Qed.

(** ** The dictionary bubble *)

Import Bubble.

Lemma length_substring_0 n s :
  String.length (String.substring 0 n s) = Nat.min n (String.length s).
Proof.
  revert n. induction s as [|c s IH]; intros [|n]; simpl; [done..|].
  by rewrite IH.
Qed.

Lemma length_string_app a b :
  String.length (a +:+ b) = String.length a + String.length b.
Proof.
  induction a as [|c a IH]; [done|].
  change (String c a +:+ b) with (String c (a +:+ b)). simpl. by rewrite IH.
Qed.

Lemma substring_0_app n a b :
  n <= String.length a ->
  String.substring 0 n (a +:+ b) = String.substring 0 n a.
Proof.
  revert n. induction a as [|c a IH]; intros n Hn.
  - simpl in Hn. assert (n = 0) as -> by lia. by destruct b.
  - change (String c a +:+ b) with (String c (a +:+ b)).
    destruct n as [|n]; [done|]. simpl in *. rewrite IH by lia. done.
Qed.

Lemma substring_0_idempotent n s :
  String.substring 0 n (String.substring 0 n s) = String.substring 0 n s.
Proof.
  revert n. induction s as [|c s IH]; intros [|n]; simpl; [done..|].
  by rewrite IH.
Qed.

(** X5.  The header never shows more than 25 code units.  A word of at
    most 25 code units is shown as it is; a longer one is shown as its first
    22 code units followed by three full stops, 25 code units in all.  In
    both cases the header begins like the word. *)
Theorem header_text_is_bounded word :
  String.length (header_text word) <= 25
  /\ (String.length word <= 25 -> header_text word = word)
  /\ (25 < String.length word ->
      String.length (header_text word) = 25
      /\ header_text word = String.substring 0 22 word +:+ "...")
  /\ String.substring 0 22 (header_text word) = String.substring 0 22 word.
Proof.
  unfold header_text.
  destruct (25 <? String.length word)%nat eqn:Hlong.
  - apply Nat.ltb_lt in Hlong.
    rewrite length_string_app, length_substring_0.
    change (String.length "...") with 3.
    split_and!; [lia | lia | intros _; split; [lia | done] |].
    rewrite substring_0_app by (rewrite length_substring_0; lia).
    apply substring_0_idempotent.
  - apply Nat.ltb_ge in Hlong. split_and!; [lia | done | lia | done].
Qed.



Lemma bubble_run_events_app st evs1 evs2 :
  run_events st (evs1 ++ evs2) = run_events (run_events st evs1) evs2.
Proof. apply fold_left_app. Qed.

(** As long as the timer has not fired, the [mousedown] listener is not
    registered. *)
Lemma mousedown_waits_for_timer st evs :
  on_mousedown st = false -> ~ In TimerFires evs ->
  on_mousedown (run_events st evs) = false.
Proof.
  revert st. induction evs as [|ev evs IH]; intros st Hoff Hno; [done|].
  simpl. apply IH; [|by intros ?; apply Hno; right].
  destruct ev as [[inside| |key]| |]; simpl.
  - rewrite Hoff. done.
  - by destruct (on_contextmenu st).
  - by destruct (on_keydown st && String.eqb key "Escape").
  - destruct Hno. by left.
  - done.
Qed.

(** X7.  Until the timer of the effect fires, a [mousedown] never closes
    the bubble, wherever it lands and whatever happened before: the click
    that opened the bubble cannot close it. *)
Theorem early_mousedown_never_closes evs inside_glass :
  ~ In TimerFires evs ->
  calls (step (run_events mount evs) (Dispatch (MouseDown inside_glass)))
  = calls (run_events mount evs).
Proof.
  intros Hno. simpl.
  by rewrite (mousedown_waits_for_timer mount evs eq_refl Hno).
Qed.

Lemma early_mousedown_never_closes_witness :
  calls (step (run_events mount [Dispatch (MouseDown false)])
           (Dispatch (MouseDown false)))
  = calls (run_events mount [Dispatch (MouseDown false)]).
Proof.
  apply (early_mousedown_never_closes [Dispatch (MouseDown false)] false).
  by intros [|[]].
Defined.

Lemma cleaned_up_stays st evs :
  timer_pending st = false -> on_mousedown st = false ->
  on_contextmenu st = false -> on_keydown st = false ->
  run_events st evs = st.
Proof.
  intros Ht Hm Hc Hk. induction evs as [|ev evs IH]; [done|].
  simpl. assert (step st ev = st) as ->; [|done].
  destruct ev as [[inside| |key]| |]; simpl.
  - by rewrite Hm.
  - by rewrite Hc.
  - by rewrite Hk.
  - unfold timer_fires. by rewrite Ht.
  - unfold cleanup. destruct st; simpl in *. by subst.
Qed.

(** X8.  After the cleanup of the effect nothing calls [onClose] any
    more: neither a later event of any kind, nor the timer, which can no
    longer register the [mousedown] listener. *)
Theorem nothing_closes_after_cleanup before after :
  run_events mount (before ++ Cleanup :: after)
  = cleanup (run_events mount before)
  /\ calls (run_events mount (before ++ Cleanup :: after))
     = calls (run_events mount before).
Proof.
  rewrite bubble_run_events_app. simpl.
  by rewrite cleaned_up_stays.
Qed.

Lemma step_keeps_listeners st ev :
  ev <> Cleanup ->
  on_contextmenu (step st ev) = on_contextmenu st
  /\ on_keydown (step st ev) = on_keydown st
  /\ (on_mousedown st = true -> on_mousedown (step st ev) = true)
  /\ (timer_pending st = true \/ on_mousedown st = true ->
      timer_pending (step st ev) = true \/ on_mousedown (step st ev) = true).
Proof.
  intros Hev. destruct ev as [[inside| |key]| |]; [..|done]; simpl;
    unfold timer_fires; repeat case_match; simpl; intuition congruence.
Qed.

Lemma listeners_stay st evs :
  ~ In Cleanup evs ->
  on_contextmenu (run_events st evs) = on_contextmenu st
  /\ on_keydown (run_events st evs) = on_keydown st
  /\ (on_mousedown st = true -> on_mousedown (run_events st evs) = true).
Proof.
  revert st. induction evs as [|ev evs IH]; intros st Hno; [done|]. simpl.
  destruct (step_keeps_listeners st ev) as (Hc & Hk & Hm & _).
  { intros ->. apply Hno. by left. }
  destruct (IH (step st ev)) as (Hc' & Hk' & Hm').
  { intros ?. apply Hno. by right. }
  rewrite Hc', Hk', Hc, Hk. auto.
Qed.

Lemma mousedown_after_timer st evs :
  ~ In Cleanup evs -> In TimerFires evs ->
  timer_pending st = true \/ on_mousedown st = true ->
  on_mousedown (run_events st evs) = true.
Proof.
  revert st. induction evs as [|ev evs IH]; intros st Hno Hin Hst; [done|].
  simpl. assert (~ In Cleanup evs) as Hno' by (intros ?; apply Hno; by right).
  assert (ev = TimerFires \/ ev <> TimerFires) as [->|Hev]
    by (destruct ev; (by left) || (by right)).
  - apply listeners_stay; [done|]. simpl. unfold timer_fires.
    destruct Hst as [->|Hon]; [done|]. by destruct (timer_pending st).
  - destruct Hin as [?|Hin]; [congruence|]. apply IH; [done..|].
    apply step_keeps_listeners; [|done]. intros ->. apply Hno. by left.
Qed.

(** X9.  While the effect is mounted, whatever happened before, the
    Escape key closes the bubble and a right click prevents the context
    menu and closes it.  Once the timer has fired, a [mousedown] closes the
    bubble exactly when its target has no ancestor of class [glass]: a
    [mousedown] inside the bubble, or on any other element of that class,
    never closes it. *)
Theorem mounted_bubble_closes evs :
  ~ In Cleanup evs ->
  let st := run_events mount evs in
  calls (dispatch (KeyDown "Escape") st) = calls st ++ [OnClose]
  /\ calls (dispatch ContextMenu st) = calls st ++ [PreventDefault; OnClose]
  /\ (In TimerFires evs ->
      calls (dispatch (MouseDown false) st) = calls st ++ [OnClose])
  /\ dispatch (MouseDown true) st = st.
Proof.
  intros Hno. cbv zeta.
  destruct (listeners_stay mount evs Hno) as (Hc & Hk & _).
  split_and!.
  - simpl. by rewrite Hk.
  - simpl. by rewrite Hc.
  - intros Hin. simpl. rewrite mousedown_after_timer; [done..|]. by left.
  - simpl. by rewrite andb_false_r.
Qed.

Lemma mounted_bubble_closes_witness :
  let st := run_events mount [Dispatch (MouseDown false); TimerFires] in
  calls (dispatch (KeyDown "Escape") st) = calls st ++ [OnClose]
  /\ calls (dispatch ContextMenu st) = calls st ++ [PreventDefault; OnClose]
  /\ (In TimerFires [Dispatch (MouseDown false); TimerFires] ->
      calls (dispatch (MouseDown false) st) = calls st ++ [OnClose])
  /\ dispatch (MouseDown true) st = st.
Proof.
  apply (mounted_bubble_closes [Dispatch (MouseDown false); TimerFires]).
  by intros [|[|[]]].
Defined.

(** ** Saving the scroll position *)

Module ScrollSaveFacts.

Import ScrollSave.

Section Facts.

Context {Num : Type}.

Implicit Types st : @Saver Num.

Lemma clearTimeout_same id : clearTimeout id [id] = [].
Proof. unfold clearTimeout. by rewrite filter_cons_False, filter_nil by naive_solver. Qed.

Lemma handleScroll_timer st :
  one_timer st ->
  live (handleScroll st) = [next_id st]
  /\ scrollTimeout (handleScroll st) = Some (next_id st).
Proof.
  intros [Hnone|(id & Hone & Hvar)]; unfold handleScroll; simpl.
  - rewrite Hnone. by destruct (scrollTimeout st).
  - by rewrite Hvar, Hone, clearTimeout_same.
Qed.

Lemma step_one_timer st ev : one_timer st -> one_timer (step st ev).
Proof.
  intros Hinv. destruct ev as [y|id|unmounts]; simpl.
  - unfold scroll. destruct (listening st); [|done].
    right. exists (next_id st).
    match goal with
    | |- context [handleScroll ?m] =>
        assert (one_timer m) as Hm by exact Hinv;
        apply (handleScroll_timer m Hm)
    end.
  - unfold fire. case_decide as Hin; [|done]. left. simpl.
    destruct Hinv as [Hnone|(id' & Hone & _)].
    + rewrite Hnone in Hin. by apply elem_of_nil in Hin.
    + rewrite Hone in Hin |- *. apply list_elem_of_singleton in Hin as ->.
      apply clearTimeout_same.
  - left. unfold cleanup. simpl.
    destruct Hinv as [Hnone|(id' & Hone & Hvar)].
    + rewrite Hnone. by destruct (scrollTimeout st).
    + by rewrite Hvar, Hone, clearTimeout_same.
Qed.

Lemma run_one_timer st evs : one_timer st -> one_timer (run_events st evs).
Proof.
  revert st. induction evs as [|ev evs IH]; intros st Hinv; [done|].
  simpl. by apply IH, step_one_timer.
Qed.

Lemma start_one_timer next (top : Num) is_attached :
  one_timer (start next top is_attached).
Proof. by left. Qed.

Lemma run_events_app st evs1 evs2 :
  run_events st (evs1 ++ evs2) = run_events (run_events st evs1) evs2.
Proof. apply fold_left_app. Qed.

(** X10.  However scroll events, timers and the cleanup interleave, at most
    one timer of the handler is due at any time, and it is the one whose id
    the variable [scrollTimeout] holds: every earlier timer was cleared. *)
Theorem at_most_one_timer_is_due next (top : Num) is_attached evs :
  let st := run_events (start next top is_attached) evs in
  length (live st) <= 1
  /\ forall id, id ∈ live st -> scrollTimeout st = Some id.
Proof.
  cbv zeta.
  destruct (run_one_timer (start next top is_attached) evs)
    as [Hnone|(id & Hone & Hvar)]; [by left|..].
  - rewrite Hnone. split; [simpl; lia|]. by intros id ?%elem_of_nil.
  - rewrite Hone. split; [simpl; lia|].
    by intros id' ->%list_elem_of_singleton.
Qed.

Lemma step_budget st ev :
  one_timer st ->
  length (updates (step st ev)) + length (live (step st ev))
  <= length (updates st) + length (live st)
     + (if is_scroll ev then 1 else 0).
Proof.
  intros Hinv. destruct ev as [y|id|unmounts]; simpl.
  - unfold scroll. destruct (listening st); [|simpl; lia].
    match goal with
    | |- context [handleScroll ?m] =>
        assert (one_timer m) as Hm by exact Hinv;
        destruct (handleScroll_timer m Hm) as [-> _]
    end. simpl.
    destruct Hinv as [->|(id & -> & _)]; simpl; lia.
  - unfold fire. case_decide as Hin; [|lia]. simpl.
    destruct Hinv as [Hnone|(id' & Hone & _)].
    + rewrite Hnone in Hin. by apply elem_of_nil in Hin.
    + rewrite Hone in Hin |- *. apply list_elem_of_singleton in Hin as ->.
      rewrite clearTimeout_same. destruct (attached st); simpl;
        rewrite ?length_app; simpl; lia.
  - unfold cleanup. simpl.
    destruct Hinv as [Hnone|(id' & Hone & Hvar)].
    + rewrite Hnone. destruct (scrollTimeout st); simpl; lia.
    + rewrite Hvar, Hone, clearTimeout_same. simpl. lia.
Qed.

Lemma run_budget st evs :
  one_timer st ->
  length (updates (run_events st evs)) + length (live (run_events st evs))
  <= length (updates st) + length (live st) + scrolls evs.
Proof.
  revert st. induction evs as [|ev evs IH]; intros st Hinv.
  { unfold scrolls. simpl. lia. }
  simpl. pose proof (IH (step st ev) (step_one_timer st ev Hinv)) as Hrest.
  pose proof (step_budget st ev Hinv) as Hstep.
  unfold scrolls in *. rewrite filter_cons.
  destruct (is_scroll ev); case_decide; try done; simpl in *; lia.
Qed.

(** X11.  The position is saved at most once per scroll event: in every
    trace the number of [updateTab] calls, plus one if a timer is still due,
    does not exceed the number of scroll events. *)
Theorem saves_do_not_exceed_scrolls next (top : Num) is_attached evs :
  let st := run_events (start next top is_attached) evs in
  length (updates st) + length (live st) <= scrolls evs.
Proof.
  cbv zeta.
  pose proof (run_budget (start next top is_attached) evs
                (start_one_timer _ _ _)) as H.
  simpl in H. lia.
Qed.

Lemma scroll_burst st ys y :
  one_timer st -> listening st = true ->
  let st' := run_events st (map Scroll (ys ++ [y])) in
  one_timer st' /\ listening st' = true /\ attached st' = attached st
  /\ updates st' = updates st /\ scrollTop st' = y
  /\ exists id, live st' = [id].
Proof.
  revert st. induction ys as [|y0 ys IH]; intros st Hinv Hon; cbv zeta.
  - simpl. unfold scroll. rewrite Hon.
    match goal with
    | |- context [handleScroll ?m] =>
        assert (one_timer m) as Hm by exact Hinv;
        destruct (handleScroll_timer m Hm) as [Hlive Hvar];
        pose proof (step_one_timer st (Scroll y) Hinv) as Hinv'
    end.
    simpl in Hinv'. unfold scroll in Hinv'. rewrite Hon in Hinv'.
    split_and!; [done..|]. eauto.
  - simpl.
    assert (listening (scroll y0 st) = true
            /\ attached (scroll y0 st) = attached st
            /\ updates (scroll y0 st) = updates st) as (Hon' & Hatt & Hupd).
    { unfold scroll. by rewrite Hon. }
    destruct (IH (scroll y0 st) (step_one_timer st (Scroll y0) Hinv) Hon')
      as (? & ? & ? & ? & ? & ?).
    split_and!; [done|done|congruence|congruence|done|done].
Qed.

Lemma listening_stays st evs :
  Forall (fun ev => forall u, ev <> Cleanup u) evs ->
  listening (run_events st evs) = listening st
  /\ attached (run_events st evs) = attached st.
Proof.
  revert st. induction evs as [|ev evs IH]; intros st Hno; [done|].
  apply Forall_cons in Hno as [Hev Hno]. simpl.
  destruct (IH (step st ev) Hno) as [-> ->].
  destruct ev as [y|id|u]; simpl.
  - unfold scroll. by destruct (listening st).
  - unfold fire. by case_decide.
  - by destruct (Hev u).
Qed.

(** X12.  Debounce: after a burst of scroll events in a mounted viewer,
    exactly one timer is due; when it fires, exactly one position is saved,
    the one of the last event of the burst; any other timer id does
    nothing. *)
Theorem burst_saves_the_last_position next (top : Num) evs ys y :
  Forall (fun ev => forall u, ev <> Cleanup u) evs ->
  let st := run_events (start next top true) evs in
  let st' := run_events st (map Scroll (ys ++ [y])) in
  exists id,
    live st' = [id]
    /\ updates (fire id st') = updates st ++ [y]
    /\ forall id', id' <> id -> fire id' st' = st'.
Proof.
  intros Hno. cbv zeta.
  destruct (listening_stays (start next top true) evs Hno) as [Hon Hatt].
  destruct (scroll_burst (run_events (start next top true) evs) ys y)
    as (_ & _ & Hatt' & Hupd & Htop & id & Hlive);
    [apply run_one_timer, start_one_timer | done |].
  exists id. split_and!; [done| |].
  - unfold fire. rewrite Hlive, decide_True by by apply list_elem_of_singleton.
    simpl. by rewrite Hatt', Hatt, Hupd, Htop.
  - intros id' Hne. unfold fire. rewrite Hlive.
    by rewrite decide_False by by intros ->%list_elem_of_singleton.
Qed.

Lemma quiet_after_cleanup st evs :
  live st = [] -> listening st = false ->
  updates (run_events st evs) = updates st.
Proof.
  revert st. induction evs as [|ev evs IH]; intros st Hlive Hoff; [done|].
  simpl. destruct ev as [y|id|u]; simpl.
  - unfold scroll. rewrite Hoff. by rewrite IH.
  - unfold fire. rewrite Hlive.
    rewrite decide_False by by intros ?%elem_of_nil. by apply IH.
  - rewrite IH; [done| |done]. unfold cleanup. simpl. rewrite Hlive.
    by destruct (scrollTimeout st).
Qed.

(** X13.  After the cleanup of the effect no position is saved any more,
    whatever scrolls or fires later: the timer that was due has been
    cleared and the listener is gone. *)
Theorem no_save_after_cleanup next (top : Num) is_attached before u after :
  updates (run_events (start next top is_attached)
             (before ++ Cleanup u :: after))
  = updates (run_events (start next top is_attached) before).
Proof.
  rewrite run_events_app. simpl.
  pose proof (run_one_timer (start next top is_attached) before
                (start_one_timer _ _ _)) as Hinv.
  rewrite quiet_after_cleanup; [done| |done].
  unfold cleanup. simpl.
  destruct Hinv as [->|(id & -> & ->)]; [by destruct (scrollTimeout _)|].
  apply clearTimeout_same.
Qed.

End Facts.

Lemma burst_saves_the_last_position_witness :
  let st := run_events (start 1%positive 0%N true) [Scroll 5%N; Fire 1%positive] in
  let st' := run_events st (map Scroll ([40; 80] ++ [120]))%N in
  exists id,
    live st' = [id]
    /\ updates (fire id st') = updates st ++ [120%N]
    /\ forall id', id' <> id -> fire id' st' = st'.
Proof.
  apply (burst_saves_the_last_position 1%positive 0%N
           [Scroll 5%N; Fire 1%positive] [40; 80]%N 120%N).
  repeat constructor; by intros u.
Defined.

End ScrollSaveFacts.

(** ** The dark-mode patch of [drawImage] *)

Import Canvas.

(** The patched function, where the native one succeeds: the image is drawn
    under the dark filter and the context is as before. *)
Lemma patchedDrawImage_drawable img ctx :
  drawable img = true ->
  patchedDrawImage img ctx
  = (Normal tt,
     {| current := current ctx; saved := saved ctx;
        painted := painted ctx ++ [PaintImage (image_name img) dark_filter] |}).
Proof.
  intros Hok. unfold patchedDrawImage, originalDrawImage, modify. simpl.
  by rewrite Hok.
Qed.

Lemma perform_same_but_dark base o light dark :
  same_but_dark base light dark ->
  (perform false o light).1 = (perform true o dark).1
  /\ ((perform false o light).1 = Normal tt ->
      same_but_dark base (perform false o light).2 (perform true o dark).2).
Proof.
  intros (Hcur & Hsaved & ps & Hlight & Hdark).
  destruct o as [| |f|s| |img]; simpl.
  - split; [done|]. intros _. unfold same_but_dark, save. simpl.
    rewrite Hcur, Hsaved. split_and!; [done..|]. by exists ps.
  - split; [done|]. intros _. unfold same_but_dark, restore.
    rewrite Hsaved. destruct (saved light) as [|d rest] eqn:Hstack; simpl.
    + split_and!; [done | congruence |]. by exists ps.
    + split_and!; [done..|]. by exists ps.
  - split; [done|]. intros _. unfold same_but_dark, set_filter. simpl.
    rewrite Hcur. split_and!; [done..|]. by exists ps.
  - split; [done|]. intros _. unfold same_but_dark, set_fillStyle. simpl.
    rewrite Hcur. split_and!; [done..|]. by exists ps.
  - split; [done|]. intros _. unfold same_but_dark, put. simpl.
    rewrite Hcur. split_and!; [done..|].
    exists (ps ++ [PaintRect (fillStyle (current light))
                     (filter (current light))]).
    by rewrite Hlight, Hdark, fmap_app, !app_assoc.
  - destruct (drawable img) eqn:Hok.
    + rewrite patchedDrawImage_drawable by done.
      unfold originalDrawImage. rewrite Hok. simpl. split; [done|].
      intros _. unfold same_but_dark. simpl. split_and!; [done..|].
      exists (ps ++ [PaintImage (image_name img) (filter (current light))]).
      by rewrite Hlight, Hdark, fmap_app, !app_assoc.
    + unfold patchedDrawImage, originalDrawImage, modify. simpl.
      rewrite Hok. simpl. by split.
Qed.

Lemma perform_all_same_but_dark base ops light dark :
  same_but_dark base light dark ->
  (perform_all false ops light).1 = (perform_all true ops dark).1
  /\ ((perform_all false ops light).1 = Normal tt ->
      same_but_dark base (perform_all false ops light).2
                    (perform_all true ops dark).2).
Proof.
  revert light dark. induction ops as [|o ops IH]; intros light dark Hsame.
  { by split. }
  destruct (perform_same_but_dark base o light dark Hsame) as [Hres Hnext].
  cbn [perform_all bind StateErr_sequence].
  destruct (perform false o light) as [[[]|e] light'] eqn:Hlight;
    destruct (perform true o dark) as [[[]|e'] dark'] eqn:Hdark;
    simpl in *; try done.
  by apply IH, Hnext.
Qed.

(** X14.  Dark mode changes nothing but the filter under which images are
    drawn.  For every sequence of calls on a context, the run with the
    patched [drawImage] ends like the run with the native one, normally or
    with the same exception; when it ends normally, the drawing state and
    the stack of saved states are the same in both, and so are the paints,
    except that every image is drawn under the inverting filter: in such a
    run the patch never leaks its filter into a later call. *)
Theorem dark_mode_only_changes_image_filter ops ctx :
  let light := perform_all false ops ctx in
  let dark := perform_all true ops ctx in
  light.1 = dark.1
  /\ (light.1 = Normal tt ->
      current dark.2 = current light.2
      /\ saved dark.2 = saved light.2
      /\ exists paints,
           painted light.2 = painted ctx ++ paints
           /\ painted dark.2 = painted ctx ++ (darken <$> paints)).
Proof.
  cbv zeta.
  destruct (perform_all_same_but_dark (painted ctx) ops ctx ctx) as [Hres Hok].
  { unfold same_but_dark. split_and!; [done..|]. exists []. simpl.
    by rewrite app_nil_r. }
  split; [done|]. intros Hnormal. by apply Hok.
Qed.

(** Where the native function throws, the patch has no [finally]: the state
    it saved stays on the stack and its filter stays set. *)
Lemma patchedDrawImage_throw_leaks img ctx :
  drawable img = false ->
  patchedDrawImage img ctx
  = (Throw TypeError,
     {| current := {| filter := dark_filter;
                      fillStyle := fillStyle (current ctx) |};
        saved := current ctx :: saved ctx; painted := painted ctx |}).
Proof.
  intros Hbad. unfold patchedDrawImage, originalDrawImage, modify. simpl.
  by rewrite Hbad.
Qed.

(** ** Opening a file *)

Import App.

Lemma string_app_nil_r s : s +:+ "" = s.
Proof.
  induction s as [|c s IH]; [done|].
  change (String c s +:+ "") with (String c (s +:+ "")). by rewrite IH.
Qed.

Lemma split_path_shape s :
  exists init piece prefix,
    split_path s = init ++ [piece]
    /\ s = prefix +:+ piece
    /\ separator_free piece = true
    /\ (init = [] /\ prefix = ""
        \/ init <> []
           /\ exists p c, prefix = p +:+ String c "" /\ is_separator c = true).
Proof.
  induction s as [|c s (init & piece & prefix & Hsplit & Hs & Hfree & Hprefix)].
  { exists [], "", "". split_and!; [done..|by left]. }
  cbn [split_path]. destruct (is_separator c) eqn:Hc.
  - exists ("" :: init), piece, (String c prefix).
    rewrite Hsplit. split_and!; [done | by rewrite Hs | done |].
    right. split; [done|].
    destruct Hprefix as [[_ ->]|(_ & p & d & -> & Hd)].
    + by exists "", c.
    + by exists (String c p), d.
  - rewrite Hsplit. destruct init as [|first init]; simpl.
    + destruct Hprefix as [[_ ->]|[? _]]; [|done].
      exists [], (String c piece), "".
      split_and!; [done | by rewrite Hs | | by left].
      simpl. by rewrite Hc.
    + exists (String c first :: init), piece, (String c prefix).
      split_and!; [done | by rewrite Hs | done |].
      right. split; [done|].
      destruct Hprefix as [[? _]|(_ & p & d & -> & Hd)]; [done|].
      by exists (String c p), d.
Qed.

Lemma tab_name_shape path :
  path <> "" ->
  tab_name path <> ""
  /\ separator_free (tab_name path) = true
  /\ ((exists prefix,
         path = prefix +:+ tab_name path
         /\ (prefix = ""
             \/ exists p c, prefix = p +:+ String c ""
                            /\ is_separator c = true))
      \/ tab_name path = "Document.pdf"
         /\ exists p c, path = p +:+ String c "" /\ is_separator c = true).
Proof.
  intros Hpath. unfold tab_name.
  destruct (split_path_shape path)
    as (init & piece & prefix & -> & Hs & Hfree & Hprefix).
  rewrite last_snoc. destruct piece as [|c piece]; simpl.
  - split_and!; [done..|]. right. split; [done|].
    destruct Hprefix as [[_ ->]|(_ & p & c & -> & Hc)]; [done|].
    exists p, c. split; [|done]. by rewrite Hs, string_app_nil_r.
  - split_and!; [done..|]. left. exists prefix. split; [done|].
    destruct Hprefix as [[_ ->]|(_ & p & d & -> & Hd)]; [by left|].
    right. by exists p, d.
Qed.

(** X15.  In the desktop application a tab is added only for a path the
    dialog resolved with, and then it is the only call: a dismissed dialog or
    a list of paths adds nothing and a failing dialog only logs.  The tab's
    URL is the converted path.  Its name is never empty and holds no slash
    or backslash.  It is the part of the path after its last separator:
    the path is the name, or it is a prefix ending with a slash or a
    backslash followed by the name.  When nothing follows the last
    separator, the name is [Document.pdf]. *)
Theorem opened_tab_is_named_after_the_file convertFileSrc selected name url :
  In (AddTab name url) (handleOpenFile convertFileSrc (Desktop selected)) ->
  exists path,
    selected = Normal (OnePath path)
    /\ handleOpenFile convertFileSrc (Desktop selected) = [AddTab name url]
    /\ url = convertFileSrc path
    /\ name <> "" /\ separator_free name = true
    /\ ((exists prefix,
           path = prefix +:+ name
           /\ (prefix = ""
               \/ exists p c, prefix = p +:+ String c ""
                              /\ is_separator c = true))
        \/ name = "Document.pdf"
           /\ exists p c, path = p +:+ String c "" /\ is_separator c = true).
Proof.
  unfold handleOpenFile.
  destruct selected as [[|path|paths]|e]; try by intros [].
  destruct path as [|c path]; [by intros []|]. cbn [is_empty].
  intros [[= <- <-]|[]]. exists (String c path).
  split_and!; [done..| | |]; by apply tab_name_shape.
Qed.

Lemma opened_tab_is_named_after_the_file_witness :
  exists path,
    Normal (OnePath "C:\docs\paper.pdf") = Normal (OnePath path)
    /\ handleOpenFile (fun p => "asset://" +:+ p)
         (Desktop (Normal (OnePath "C:\docs\paper.pdf")))
       = [AddTab "paper.pdf" "asset://C:\docs\paper.pdf"]
    /\ "asset://C:\docs\paper.pdf" = "asset://" +:+ path
    /\ "paper.pdf" <> "" /\ separator_free "paper.pdf" = true
    /\ ((exists prefix,
           path = prefix +:+ "paper.pdf"
           /\ (prefix = ""
               \/ exists p c, prefix = p +:+ String c ""
                              /\ is_separator c = true))
        \/ "paper.pdf" = "Document.pdf"
           /\ exists p c, path = p +:+ String c "" /\ is_separator c = true).
Proof.
  apply (opened_tab_is_named_after_the_file
           (fun p => "asset://" +:+ p)
           (Normal (OnePath "C:\docs\paper.pdf"))).
  vm_compute. by left.
Defined.

(** ** The deep dive *)

(** X16.  Without a key (missing or empty) [handleDeepDive] never calls the
    analysis service and never touches the loading flag: it sets the
    message and opens the settings.  With a key it calls the service exactly
    once, with the selected text as text and as context, after clearing the
    selection; whatever the service does (also when it rejects with a value
    that has no message, so that the handler itself throws) the last call
    sets the loading flag back to false. *)
Theorem deep_dive_always_stops_loading apiKey service text :
  let calls := (handleDeepDive apiKey service text).2 in
  match apiKey with
  | Some (String k key) =>
      analysis_calls calls
      = [AnalyzeTextWithGroq text text (String k key)]
      /\ head calls = Some (SetLoading true)
      /\ last calls = Some (SetLoading false)
      /\ In SetSelection_null calls
      /\ ((handleDeepDive apiKey service text).1 = Normal tt
          <-> service text text (String k key) <> Rejects None)
  | _ =>
      analysis_calls calls = []
      /\ (forall b, ~ In (SetLoading b) calls)
      /\ ~ In SetSelection_null calls
      /\ In (SetIsSettingsOpen true) calls
      /\ (handleDeepDive apiKey service text).1 = Normal tt
  end.
Proof.
  destruct apiKey as [[|k key]|]; cbv zeta.
  - simpl. split_and!; [done | | | by right; left | done].
    + by intros b [|[|[]]].
    + by intros [|[|[]]].
  - cbn [handleDeepDive].
    destruct (service text text (String k key)) as [result|[m|]]; simpl;
      (split_and!; [done | done | done | tauto | ]); by split.
  - simpl. split_and!; [done | | | by right; left | done].
    + by intros b [|[|[]]].
    + by intros [|[|[]]].
Qed.

(** ** The selection kept by the application *)

Lemma handleMouseUp_cases {Num} (plus : Num -> Num -> Num) (half : Num -> Num)
    isEditMode selection :
  handleMouseUp plus half isEditMode selection = Normal []
  \/ (exists e, handleMouseUp plus half isEditMode selection = Throw e)
  \/ exists text x y,
       handleMouseUp plus half isEditMode selection
       = Normal [OnSelection text x y]
       /\ isEditMode = false /\ text <> "" /\ trim text = text.
Proof.
  unfold handleMouseUp. destruct isEditMode; [by left|].
  destruct selection as [sel|]; [|by left].
  destruct (0 <? String.length (trim (toString sel)))%nat eqn:Hlen;
    [|by left].
  unfold first_rect. destruct (ranges sel) as [|r rs]; simpl.
  - right. left. by eexists.
  - right. right. do 3 eexists. split; [done|]. split; [done|].
    split; [|apply trim_idempotent].
    apply Nat.ltb_lt in Hlen. intros Hempty. rewrite Hempty in Hlen.
    simpl in Hlen. lia.
Qed.

Section SelectionFacts.

Context {Num : Type} (plus : Num -> Num -> Num) (half : Num -> Num).

Implicit Types st : @AppState Num.

Lemma app_step_keeps_word st ev :
  (forall t x y, selection st = Some (t, x, y) -> t <> "" /\ trim t = t) ->
  forall t x y, selection (app_step plus half st ev) = Some (t, x, y) ->
                t <> "" /\ trim t = t.
Proof.
  intros Hst. destruct ev as [sel| | | |has_key|b]; simpl.
  - destruct (handleMouseUp_cases plus half (isEditMode st) sel)
      as [->|[[e ->]|(text & x0 & y0 & -> & Hread & Hne & Htrim)]];
      [done..|].
    simpl. unfold handleSelection. rewrite Hread. simpl.
    by intros t x y [= <- _ _].
  - unfold handleScroll. destruct (selection st) eqn:Hsel; [done|].
    by rewrite Hsel.
  - done.
  - done.
  - by destruct has_key.
  - done.
Qed.

Lemma app_run_keeps_word st evs :
  (forall t x y, selection st = Some (t, x, y) -> t <> "" /\ trim t = t) ->
  forall t x y, selection (app_run plus half st evs) = Some (t, x, y) ->
                t <> "" /\ trim t = t.
Proof.
  revert st. induction evs as [|ev evs IH]; intros st Hst; [done|].
  simpl. by apply IH, app_step_keeps_word.
Qed.

(** X17.  Whatever the user does (mouse releases with any selection,
    scrolling, tab changes, closing the bubble, deep dives, switching the
    edit mode, starting in either mode), whenever the application shows the
    bubble its word is not empty and is trimmed, and the application is not
    in edit mode: the bubble never returns its empty rendering and never
    skips the lookup for an empty word. *)
Theorem bubble_word_is_never_blank edit evs word :
  bubble_word (app_run plus half (app_start edit) evs) = Some word ->
  word <> "" /\ trim word = word
  /\ isEditMode (app_run plus half (app_start edit) evs) = false.
Proof.
  unfold bubble_word.
  destruct (isEditMode (app_run plus half (app_start edit) evs)); [done|].
  destruct (selection (app_run plus half (app_start edit) evs))
    as [[[t x] y]|] eqn:Hsel; [|done].
  intros [= <-].
  assert (forall t x y, selection (app_start (Num := Num) edit) = Some (t, x, y)
                        -> t <> "" /\ trim t = t) as Hstart by done.
  by destruct (app_run_keeps_word (app_start edit) evs Hstart _ _ _ Hsel).
Qed.

End SelectionFacts.

Lemma bubble_word_is_never_blank_witness :
  "word" <> "" /\ trim "word" = "word"
  /\ isEditMode
       (app_run Nat.add Nat.div2 (app_start true)
          [EditMode false;
           MouseUp (Some {| toString := " word ";
                            ranges := [{| left := 10; top := 20;
                                          bottom := 30; width := 8 |}];
                            isCollapsed := false |})]) = false.
Proof.
  apply (bubble_word_is_never_blank Nat.add Nat.div2 true
           [EditMode false;
            MouseUp (Some {| toString := " word ";
                             ranges := [{| left := 10; top := 20;
                                           bottom := 30; width := 8 |}];
                             isCollapsed := false |})] "word").
  reflexivity.
Defined.

(** ** Reading mode *)

Import Editing.

Lemma render_spans_inert props tabs pageNum items spans :
  Viewer.isEditMode props = false ->
  inert (render_spans props tabs pageNum items spans).
Proof.
  intros Hread. unfold inert, render_spans. apply Forall_forall.
  intros f Hf. apply list_elem_of_lookup in Hf as [idx Hf].
  rewrite list_lookup_imap in Hf.
  destruct (spans !! idx) as [sp|]; [|done]. simpl in Hf.
  injection Hf as <-. unfold span_cb. by rewrite Hread.
Qed.

Lemma span_step_inert props fs tabs ev :
  inert fs -> span_step props (fs, tabs) ev = (fs, tabs).
Proof.
  intros Hinert.
  assert (forall idx f, fs !! idx = Some f ->
            has_listeners f = false
            /\ contentEditable (fragment_span f) = false) as Hfs.
  { intros idx f Hf. eapply Forall_forall in Hinert; [done|].
    by eapply list_elem_of_lookup_2. }
  destruct ev as [idx|idx text|idx|idx key]; simpl.
  - unfold click_at. simpl. destruct (fs !! idx) as [f|] eqn:Hf; [|done].
    by destruct (Hfs _ _ Hf) as [-> _].
  - unfold input_at. simpl. destruct (fs !! idx) as [f|] eqn:Hf; [|done].
    by destruct (Hfs _ _ Hf) as [_ ->].
  - unfold blur_at. simpl. destruct (fs !! idx) as [f|] eqn:Hf; [|done].
    by destruct (Hfs _ _ Hf) as [-> _].
  - unfold keydown_at, blur_at. simpl. destruct (key =? "Enter")%string; [|done].
    destruct (fs !! idx) as [f|] eqn:Hf; [|done].
    by destruct (Hfs _ _ Hf) as [-> _].
Qed.

(** X18.  Reading mode is read-only.  On a page rendered outside edit mode,
    no sequence of clicks, text input, blurs and key presses on its
    fragments changes a fragment or the store: no span becomes editable and
    no edit is saved. *)
Theorem reading_mode_is_read_only props tabs pageNum items spans evs :
  Viewer.isEditMode props = false ->
  span_run props (render_spans props tabs pageNum items spans, tabs) evs
  = (render_spans props tabs pageNum items spans, tabs).
Proof.
  intros Hread. unfold span_run.
  induction evs as [|ev evs IH]; [done|]. simpl.
  rewrite span_step_inert; [done|]. by apply render_spans_inert.
Qed.

Lemma reading_mode_is_read_only_witness :
  span_run reading_props
    (render_spans reading_props edited_tabs 1 [] [original_span], edited_tabs)
    [Click 0; Input 0 "changed"; KeyDown 0 "Enter"; Blur 0]
  = (render_spans reading_props edited_tabs 1 [] [original_span],
     edited_tabs).
Proof.
  apply (reading_mode_is_read_only reading_props edited_tabs 1 []
           [original_span]
           [Click 0; Input 0 "changed"; KeyDown 0 "Enter"; Blur 0]).
  reflexivity.
Defined.

(** ** The container of a viewer that is unmounted *)

Import Teardown.

#[local] Transparent resumed.

Lemma resumed_guarded sch v :
  unmounts sch = true -> guarded v -> guarded (resumed sch v).
Proof.
  intros Hun [Hflag Hboxes]. unfold guarded, resumed, cleanup.
  case_decide; simpl; [|done]. by rewrite Hun.
Qed.

#[local] Opaque resumed.

Lemma keeps_ret {A} (a : A) : keeps (ret a).
Proof. by intros v Hv. Qed.

Lemma keeps_lift {A} (c : completion A) : keeps (lift c).
Proof. by intros v Hv. Qed.

Lemma keeps_gets {A} (f : View -> A) : keeps (gets f).
Proof. by intros v Hv. Qed.

Lemma keeps_bind {A B} (m : StateErr View A) (k : A -> StateErr View B) :
  keeps m -> (forall a, keeps (k a)) -> keeps (bind m k).
Proof.
  intros Hm Hk v Hv. specialize (Hm v Hv). simpl.
  destruct (m v) as [[a|e] v']; simpl in *; [by apply Hk | done].
Qed.

Lemma keeps_try_catch {A} (body : StateErr View A) handler :
  keeps body -> (forall e, keeps (handler e)) -> keeps (try_catch body handler).
Proof.
  intros Hbody Hhandler v Hv. specialize (Hbody v Hv). unfold try_catch.
  destruct (body v) as [[a|e] v']; simpl in *; [done | by apply Hhandler].
Qed.

Lemma keeps_await sch : unmounts sch = true -> keeps (await_ sch).
Proof. intros Hun v Hv. by apply resumed_guarded. Qed.

Lemma keeps_log e : keeps (log e).
Proof. by intros v Hv. Qed.

Lemma keeps_appendChild pageNum : keeps (appendChild pageNum).
Proof.
  intros v [Hflag Hboxes]. unfold appendChild, gets, modify. simpl.
  destruct (containerRef v) eqn:Href; simpl.
  - split; simpl; [by rewrite Href|].
    apply Forall_app. split; [done|].
    repeat constructor. simpl. by apply Hflag.
  - split; [by rewrite Href | done].
Qed.

Lemma keeps_update_box appended pageNum f :
  (forall b, appended_while_active (f b) = appended_while_active b) ->
  keeps (update_box appended pageNum f).
Proof.
  intros Hf v [Hflag Hboxes]. unfold update_box.
  destruct appended; [|done]. split; [done|]. simpl.
  apply Forall_forall. intros b Hb. apply list_elem_of_fmap in Hb as [b0 [-> Hb0]].
  eapply Forall_forall in Hboxes; [|done].
  destruct (page_number b0 =? pageNum)%N; [by rewrite Hf | done].
Qed.

Lemma keeps_renderPage sch props tabs pageNum p :
  unmounts sch = true -> keeps (renderPage sch props tabs pageNum p).
Proof.
  intros Hun. unfold renderPage.
  apply keeps_bind; [by apply keeps_await|]. intros _.
  destruct (negb (getPage_ok p)); [apply keeps_lift|].
  destruct (negb (context_ok p)); [apply keeps_ret|].
  apply keeps_bind; [apply keeps_appendChild|]. intros appended.
  apply keeps_bind; [by apply keeps_await|]. intros _.
  destruct (negb (render_ok p)); [apply keeps_lift|].
  apply keeps_bind; [by apply keeps_update_box|]. intros _.
  apply keeps_bind; [by apply keeps_await|]. intros _.
  destruct (getTextContent p) as [items|]; [|apply keeps_lift].
  apply keeps_try_catch; [|intros _; apply keeps_log].
  destruct (textLayer p) as [| |spans].
  - apply keeps_ret.
  - apply keeps_bind; [by apply keeps_await|]. intros _. apply keeps_lift.
  - apply keeps_bind; [by apply keeps_await|]. intros _.
    by apply keeps_update_box.
Qed.

Lemma keeps_render_pages sch props tabs i ps :
  unmounts sch = true -> keeps (render_pages sch props tabs i ps).
Proof.
  intros Hun. revert i. induction ps as [|p ps IH]; intros i.
  - apply keeps_ret.
  - cbn [render_pages]. apply keeps_bind; [by apply keeps_renderPage|].
    intros _. apply IH.
Qed.

(** X19.  Unmounting keeps stale pages out, whenever it happens.  When the
    cleanup of the effect comes with the unmounting of the viewer, at any
    suspension of any document's load or not at all, the run of [loadPdf]
    either leaves the container as it found it, or it has emptied it and
    every page container in it was appended while the flag was still set. *)
Theorem unmount_never_appends_stale_page sch props tabs pdf previous :
  unmounts sch = true ->
  let v := (loadPdf sch props tabs pdf (mounted previous)).2 in
  container v = previous \/ stale_pages v = [].
Proof.
  intros Hun. cbv zeta. unfold loadPdf, try_catch.
  cbn [bind StateErr_sequence await_ modify].
  destruct (negb (getDocument_ok pdf)).
  { left. simpl. apply resumed_container. }
  cbn [gets].
  destruct (active (resumed sch (mounted previous))) eqn:Hact; simpl;
    [|left; apply resumed_container].
  destruct (containerRef (resumed sch (mounted previous))) eqn:Href; simpl;
    [|left; apply resumed_container].
  right.
  assert (guarded (set_container (fun _ => [])
                     (resumed sch (mounted previous)))) as Hstart.
  { split; simpl; [done | constructor]. }
  apply (keeps_render_pages sch props tabs 1 (pages pdf) Hun) in Hstart.
  assert (forall v, guarded v -> stale_pages v = []) as Hnone.
  { intros v [_ Hboxes]. unfold stale_pages.
    induction Hboxes as [|b bs Hb _ IH]; [done|].
    rewrite filter_cons_False; [done | by rewrite Hb]. }
  destruct (render_pages sch props tabs 1 (pages pdf)
              (set_container (fun _ => []) (resumed sch (mounted previous))))
    as [[[]|e] v'] eqn:Hrun; simpl in *.
  - by apply Hnone.
  - by apply (Hnone (log (LogError "Error loading PDF:") v').2), keeps_log.
Qed.

Lemma unmount_never_appends_stale_page_witness :
  let v := (loadPdf {| cleanup_at := Some 2; unmounts := true |}
              editing_props fresh_tabs
              {| getDocument_ok := true; pages := [good_page; good_page] |}
              (mounted [])).2 in
  container v = [] \/ stale_pages v = [].
Proof.
  apply (unmount_never_appends_stale_page
           {| cleanup_at := Some 2; unmounts := true |}
           editing_props fresh_tabs
           {| getDocument_ok := true; pages := [good_page; good_page] |}
           []).
  reflexivity.
Defined.

(** ** The cleaned term and the request *)

Lemma lower_code_stable c :
  lower_code (lower_code c) = lower_code c
  /\ (is_punct c = false -> is_punct (lower_code c) = false).
Proof. by destruct c as [[] [] [] [] [] [] [] []]. Qed.

Lemma strip_punct_free s :
  Forall (fun c => is_punct c = false) (list_ascii_of_string (strip_punct s)).
Proof.
  induction s as [|c s IH]; simpl; [constructor|].
  destruct (is_punct c) eqn:Hc; [done|]. by constructor.
Qed.

Lemma toLowerCase_free s :
  Forall (fun c => is_punct c = false) (list_ascii_of_string s) ->
  strip_punct (toLowerCase s) = toLowerCase s
  /\ toLowerCase (toLowerCase s) = toLowerCase s.
Proof.
  induction s as [|c s IH]; simpl; [done|]. intros Hfree.
  apply Forall_cons in Hfree as [Hc Hs]. destruct (IH Hs) as [IH1 IH2].
  destruct (lower_code_stable c) as [Hlow Hpunct].
  by rewrite (Hpunct Hc), IH1, IH2, Hlow.
Qed.

Lemma toLowerCase_chars s :
  Forall (fun c => is_punct c = false) (list_ascii_of_string s) ->
  Forall (fun c => is_punct c = false /\ lower_code c = c)
         (list_ascii_of_string (toLowerCase s)).
Proof.
  induction s as [|c s IH]; simpl; [constructor|]. intros Hfree.
  apply Forall_cons in Hfree as [Hc Hs].
  destruct (lower_code_stable c) as [Hlow Hpunct].
  constructor; [|by apply IH]. split; [by apply Hpunct | done].
Qed.

(** X20.  On code units below U+0100, the cleaned term is a fixed point
    of the two replacements that made it: it holds no character of the
    punctuation class and no capital letter, so removing punctuation or
    lower-casing it again changes nothing. *)
Theorem cleaned_term_is_stable term :
  strip_punct (cleanTerm_of term) = cleanTerm_of term
  /\ toLowerCase (cleanTerm_of term) = cleanTerm_of term
  /\ Forall (fun c => is_punct c = false /\ lower_code c = c)
            (list_ascii_of_string (cleanTerm_of term)).
Proof.
  unfold cleanTerm_of.
  destruct (toLowerCase_free (strip_punct (trim term))) as [Hstrip Hlower];
    [apply strip_punct_free|].
  split_and!; [done..|]. apply toLowerCase_chars, strip_punct_free.
Qed.

Lemma hex_digit_unreserved n : (n < 16)%N -> is_unreserved (hex_digit n) = true.
Proof.
  intros Hn. destruct n as [|p]; [done|].
  do 4 (destruct p as [p|p|]; try done; try lia).
Qed.

Lemma percent_safe n c :
  (n < 256)%N -> In c (list_ascii_of_string (percent n)) ->
  is_unreserved c = true \/ c = "%"%char.
Proof.
  intros Hn. unfold percent. simpl.
  intros [<-|[<-|[<-|[]]]]; [by right | left..].
  - apply hex_digit_unreserved. apply N.Div0.div_lt_upper_bound. lia.
  - apply hex_digit_unreserved. apply N.mod_lt. lia.
Qed.

Lemma list_ascii_of_string_app a b :
  list_ascii_of_string (a +:+ b)
  = list_ascii_of_string a ++ list_ascii_of_string b.
Proof.
  induction a as [|c a IH]; [done|].
  change (String c a +:+ b) with (String c (a +:+ b)). simpl. by rewrite IH.
Qed.

Lemma code_lt_256 c : (code c < 256)%N.
Proof. apply N_ascii_bounded. Qed.

(** X21.  The request of the online lookup goes to the entries of the
    English dictionary, followed by the encoded term as a single path
    segment: the encoded term consists of unreserved characters and
    percent signs only, so whatever the term holds (a slash, a question
    mark, a hash, a space, a percent sign) it cannot add a path segment, a
    query or a fragment to the URL. *)
Theorem request_url_is_one_path_segment cleanTerm :
  api_url cleanTerm
  = "https://api.dictionaryapi.dev/api/v2/entries/en/"
    +:+ encodeURIComponent cleanTerm
  /\ forall c, In c (list_ascii_of_string (encodeURIComponent cleanTerm)) ->
       (is_unreserved c = true \/ c = "%"%char)
       /\ ~ In c ["/"; "?"; "#"; "&"; "="; " "; ":"; "@"]%char.
Proof.
  split; [done|].
  assert (forall c, is_unreserved c = true \/ c = "%"%char ->
            ~ In c ["/"; "?"; "#"; "&"; "="; " "; ":"; "@"]%char) as Hsafe.
  { intros c Hc Hin. simpl in Hin.
    repeat (destruct Hin as [Heq|Hin];
            [subst c; destruct Hc as [Hc|Hc]; by vm_compute in Hc|]).
    done. }
  assert (forall c,
            In c (list_ascii_of_string (encodeURIComponent cleanTerm)) ->
            is_unreserved c = true \/ c = "%"%char) as Hchars.
  { intros c. induction cleanTerm as [|d s IH]; [done|].
    cbn [encodeURIComponent]. rewrite list_ascii_of_string_app.
    intros [Hin|Hin]%in_app_or; [|by apply IH].
    pose proof (code_lt_256 d) as Hd.
    destruct (is_unreserved d) eqn:Hun.
    { destruct Hin as [<-|[]]. by left. }
    destruct (code d <? 128)%N eqn:Hsmall.
    { by apply (percent_safe (code d)). }
    apply N.ltb_ge in Hsmall. rewrite list_ascii_of_string_app in Hin.
    assert (code d / 64 < 4)%N by (apply N.Div0.div_lt_upper_bound; lia).
    pose proof (N.mod_lt (code d) 64).
    apply in_app_or in Hin as [Hin|Hin];
      [apply (percent_safe (192 + code d / 64))
      |apply (percent_safe (128 + code d mod 64))]; (done || lia). }
  intros c Hin. split; [|apply Hsafe]; by apply Hchars.
Qed.

(** ** The page list of the react-pdf viewer *)

Lemma page_key_inj i j : page_key i = page_key j -> i = j.
Proof.
  unfold page_key. intros Hkey.
  apply (inj (String.app "page_")) in Hkey.
  apply number_text_inj in Hkey. lia.
Qed.

(** X22.  The page list has one entry for each page of the document, in
    order: the page numbers are exactly 1 to [numPages], each once, and no
    two entries have the same key. *)
Theorem page_keys_are_distinct numPages :
  length (page_list numPages) = numPages
  /\ NoDup (page_list numPages).*1
  /\ NoDup (page_list numPages).*2
  /\ forall n, In n (page_list numPages).*2
               <-> (1 <= n <= N.of_nat numPages)%N.
Proof.
  unfold page_list. split_and!.
  - by rewrite length_map, length_seq.
  - rewrite <- list_fmap_compose.
    apply NoDup_fmap_2_strong; [|apply NoDup_seq].
    intros i j _ _. apply page_key_inj.
  - rewrite <- list_fmap_compose.
    apply NoDup_fmap_2_strong; [|apply NoDup_seq].
    intros i j _ _. simpl. lia.
  - intros n. rewrite <- list_fmap_compose, <- list_elem_of_In.
    rewrite list_elem_of_fmap. split.
    + intros (i & -> & Hi). apply elem_of_seq in Hi. simpl. lia.
    + intros Hn. exists (N.to_nat n - 1). split; [simpl; lia|].
      apply elem_of_seq. lia.
Qed.
